(** * TIFF Viewer Pro: the decoding and bit-depth normalization pipeline

    A shallow embedding of [src/app/components/TiffViewerComponent.tsx]:
    [validateTiff], [normalizeToUint8Enhanced], [normalizeToUint8],
    [loadAndProcessTiff] and the state updates of the [TiffViewer]
    component, followed by the properties of the specification that were
    checked against them.

    JavaScript numbers are IEEE 754 binary64 values.  They are modelled by
    [spec_float] and the operations of [SpecFloat] at precision 53 and
    maximal exponent 1024, which round to nearest, ties to even, exactly as
    the JavaScript arithmetic operators do. *)

From Stdlib Require Import ZArith List Bool Lia String Ascii.
From Stdlib.Strings Require Import Byte.
From Stdlib Require Import DecimalString HexadecimalString.
From Stdlib Require Import Floats.SpecFloat.
From stdpp Require Import base list strings.
Import ListNotations.
Local Open Scope Z_scope.

(** ** JavaScript numbers *)

Module JS.

Definition number : Type := spec_float.

Definition prec : Z := 53.
Definition emax : Z := 1024.

Definition NaN : number := S754_nan.
Definition POSITIVE_INFINITY : number := S754_infinity false.
Definition NEGATIVE_INFINITY : number := S754_infinity true.

(** An integer literal, or an integer read from a typed array, as a number. *)
Definition of_Z (n : Z) : number := binary_normalize prec emax n 0 false.

Definition add : number -> number -> number := SFadd prec emax.
Definition sub : number -> number -> number := SFsub prec emax.
Definition mul : number -> number -> number := SFmul prec emax.
Definition div : number -> number -> number := SFdiv prec emax.

(** [x < y], [x <= y] and [x == y]; false as soon as one side is NaN. *)
Definition lt (x y : number) : bool := SFltb x y.
Definition le (x y : number) : bool := SFleb x y.
Definition eqb (x y : number) : bool := SFeqb x y.

(** The global [isFinite] on a number. *)
Definition isFinite (x : number) : bool :=
  match x with
  | S754_zero _ | S754_finite _ _ _ => true
  | S754_infinity _ | S754_nan => false
  end.

(** A float that a typed array or an arithmetic operation can hold. *)
Definition valid (x : number) : bool := valid_binary prec emax x.

Definition Math_abs : number -> number := SFabs.

(** [Math.max] of two arguments: NaN if one is NaN, and +0 above -0. *)
Definition Math_max (x y : number) : number :=
  match x, y with
  | S754_nan, _ | _, S754_nan => S754_nan
  | S754_zero sx, S754_zero sy => S754_zero (sx && sy)
  | _, _ => if SFltb x y then y else x
  end.

Definition Math_min (x y : number) : number :=
  match x, y with
  | S754_nan, _ | _, S754_nan => S754_nan
  | S754_zero sx, S754_zero sy => S754_zero (sx || sy)
  | _, _ => if SFltb y x then y else x
  end.

(** [Math.floor]: integers (exponent at least 0), zeros, infinities and
    NaN are returned as they are. *)
Definition Math_floor (x : number) : number :=
  match x with
  | S754_finite s m e =>
      if 0 <=? e then x
      else
        let n := Z.shiftl (cond_Zopp s (Zpos m)) e in
        if n =? 0 then S754_zero false else of_Z n
  | _ => x
  end.

Definition Math_ceil (x : number) : number :=
  match x with
  | S754_finite s m e =>
      if 0 <=? e then x
      else
        let n := - Z.shiftl (cond_Zopp (negb s) (Zpos m)) e in
        if n =? 0 then S754_zero true else of_Z n
  | _ => x
  end.

(** [Math.round]: the integer nearest to [x], ties towards +infinity,
    computed exactly as floor (x + 1/2). *)
Definition Math_round (x : number) : number :=
  match x with
  | S754_finite s m e =>
      if 0 <=? e then x
      else
        let n := Z.shiftl (2 * cond_Zopp s (Zpos m) + 2 ^ (- e)) (e - 1) in
        if n =? 0 then S754_zero s else of_Z n
  | _ => x
  end.

(** The conversion applied by a store into a [Uint8Array]: NaN, zeros and
    infinities give 0, other values are truncated and wrap modulo 256. *)
Definition ToUint8 (x : number) : Z :=
  match x with
  | S754_finite s m e => cond_Zopp s (Z.shiftl (Zpos m) e) mod 256
  | _ => 0
  end.

(** The conversion applied by a store into a [Uint8ClampedArray], for the
    values this program stores: an integer, or [undefined] (read past the
    end of an array), which converts to NaN and then to 0. *)
Definition ToUint8Clamp (v : option Z) : Z :=
  match v with
  | Some n => Z.max 0 (Z.min 255 n)
  | None => 0
  end.

Definition wrap_int32 (z : Z) : Z := (z + 2 ^ 31) mod 2 ^ 32 - 2 ^ 31.

(** [a << b] on integers: the shift count is taken modulo 32 and the
    result is a signed 32-bit integer. *)
Definition shl (a b : Z) : Z := wrap_int32 (Z.shiftl (a mod 2 ^ 32) (b mod 32)).

End JS.

Global Arguments JS.of_Z : simpl never.
Global Arguments JS.add : simpl never.
Global Arguments JS.sub : simpl never.
Global Arguments JS.mul : simpl never.
Global Arguments JS.div : simpl never.
Global Arguments JS.lt : simpl never.
Global Arguments JS.le : simpl never.
Global Arguments JS.eqb : simpl never.
Global Arguments JS.Math_max : simpl never.
Global Arguments JS.Math_min : simpl never.
Global Arguments JS.Math_floor : simpl never.
Global Arguments JS.Math_ceil : simpl never.
Global Arguments JS.Math_round : simpl never.
Global Arguments JS.ToUint8 : simpl never.
Global Arguments JS.shl : simpl never.

(** ** Typed arrays *)

(** The typed arrays [readRasters] returns. The result is cast to
    [Uint8Array | Uint16Array | Float32Array] without a check, and the code
    tests for these three with [instanceof]; for signed, 32-bit integer and
    64-bit float samples the TIFF library returns one of the other array
    types, which pass the cast. Elements of the integer arrays are integers;
    elements of the other arrays are read back as numbers. *)
Inductive OtherArrayType : Type :=
  | Int8Array
  | Int16Array
  | Uint32Array
  | Int32Array
  | Float64Array.

Inductive TypedArray : Type :=
  | Uint8Array (d : list Z)
  | Uint16Array (d : list Z)
  | Float32Array (d : list JS.number)
  | OtherArray (type : OtherArrayType) (d : list JS.number).

Definition TypedArray_length (data : TypedArray) : nat :=
  match data with
  | Uint8Array d | Uint16Array d => length d
  | Float32Array d | OtherArray _ d => length d
  end.

(** Elements are within the range of the array's element type. *)
Definition TypedArray_wf (data : TypedArray) : Prop :=
  match data with
  | Uint8Array d => Forall (fun x => 0 <= x < 256) d
  | Uint16Array d => Forall (fun x => 0 <= x < 65536) d
  | Float32Array d | OtherArray _ d => Forall (fun x => JS.valid x = true) d
  end.

(** ** Normalizer *)

(** Reading the elements of a typed array gives numbers. *)
Definition samples (data : TypedArray) : list JS.number :=
  match data with
  | Uint8Array d | Uint16Array d => map JS.of_Z d
  | Float32Array d | OtherArray _ d => d
  end.

(** The scan [for (let i = 1; ...) { if (data[i] < minValue) minValue =
    data[i]; if (data[i] > maxValue) maxValue = data[i]; }] of the 16-bit
    branch, started at [data[0]]. *)
Definition scanRange16 (d0 : JS.number) (rest : list JS.number)
  : JS.number * JS.number :=
  fold_left
    (fun '(minValue, maxValue) x =>
       ((if JS.lt x minValue then x else minValue),
        (if JS.lt maxValue x then x else maxValue)))
    rest (d0, d0).

(** The scan of the float branch, which skips non-finite samples. *)
Definition scanRange32 (d : list JS.number) : JS.number * JS.number :=
  fold_left
    (fun '(minValue, maxValue) x =>
       if JS.isFinite x then
         ((if JS.lt x minValue then x else minValue),
          (if JS.lt maxValue x then x else maxValue))
       else (minValue, maxValue))
    d (JS.POSITIVE_INFINITY, JS.NEGATIVE_INFINITY).

(** [Math.round(Math.max(0, Math.min(255, normalizedValue)))] stored into
    the [Uint8Array] result. *)
Definition storeStretched (normalizedValue : JS.number) : Z :=
  JS.ToUint8
    (JS.Math_round
       (JS.Math_max (JS.of_Z 0) (JS.Math_min (JS.of_Z 255) normalizedValue))).

(** [data[i] > 0 ? 255 : 0] *)
Definition binarize (x : Z) : Z := if 0 <? x then 255 else 0.

Definition normalizeToUint8Enhanced (data : TypedArray) (bitsPerSample : Z)
  : list Z :=
  match data with
  | Uint8Array d =>
      if bitsPerSample =? 1 then map binarize d
      else d
  | Uint16Array d =>
      match samples data with
      | [] => []
      | d0 :: rest =>
          let '(minValue, maxValue) := scanRange16 d0 rest in
          let dataRange := JS.sub maxValue minValue in
          if JS.lt (JS.of_Z 0) dataRange then
            map (fun x =>
                   storeStretched
                     (JS.mul (JS.div (JS.sub x minValue) dataRange) (JS.of_Z 255)))
              (d0 :: rest)
          else
            let fallbackValue :=
              JS.Math_round
                (JS.mul
                   (JS.div minValue (JS.of_Z (JS.shl 1 bitsPerSample - 1)))
                   (JS.of_Z 255)) in
            repeat (JS.ToUint8 fallbackValue) (length d)
      end
  | Float32Array d =>
      let '(minValue, maxValue) := scanRange32 d in
      if negb (JS.isFinite minValue) || negb (JS.isFinite maxValue) then
        repeat 0 (length d)
      else
        let dataRange := JS.sub maxValue minValue in
        if JS.lt (JS.of_Z 0) dataRange then
          map (fun x =>
                 if JS.isFinite x then
                   storeStretched
                     (JS.mul (JS.div (JS.sub x minValue) dataRange) (JS.of_Z 255))
                 else 0)
            d
        else
          let fallbackValue :=
            if JS.isFinite minValue then
              JS.Math_round
                (if JS.lt (JS.of_Z 1) (JS.Math_abs minValue) then JS.of_Z 255
                 else JS.mul (JS.Math_abs minValue) (JS.of_Z 255))
            else JS.of_Z 0 in
          repeat (JS.ToUint8 fallbackValue) (length d)
  | OtherArray _ d =>
      (* neither [instanceof] test holds: [new Uint8Array(data.length)] is
         returned as it was created *)
      repeat 0 (length d)
  end.

Definition normalizeToUint8 (data : TypedArray) (bitsPerSample : Z) : list Z :=
  match data with
  | Uint8Array d => d
  | Uint16Array d =>
      let maxValue := JS.shl 1 bitsPerSample - 1 in
      map (fun x =>
             JS.ToUint8
               (JS.Math_floor
                  (JS.mul (JS.div (JS.of_Z x) (JS.of_Z maxValue)) (JS.of_Z 255))))
        d
  | Float32Array d =>
      map (fun x =>
             JS.ToUint8
               (JS.Math_floor
                  (JS.mul (JS.Math_max (JS.of_Z 0) (JS.Math_min (JS.of_Z 1) x))
                     (JS.of_Z 255))))
        d
  | OtherArray _ d => repeat 0 (length d)
  end.

(** ** FormatValidator *)

Definition byte_to_Z (b : byte) : Z := Z.of_N (Byte.to_N b).

(** Template-literal rendering of an integer. *)
Definition decimal (n : Z) : string :=
  DecimalString.NilZero.string_of_int (Z.to_int n).

(** [b.toString(16).padStart(2, "0")] *)
Definition hex2 (b : Z) : string :=
  let h := HexadecimalString.NilZero.string_of_uint (N.to_hex_uint (Z.to_N b)) in
  if (String.length h <? 2)%nat then "0" +:+ h else h.

(** [DataView.getUint8] and [DataView.getUint16]: [None] stands for the
    [RangeError] thrown when the offset is outside the view. *)
Definition getUint8 (buffer : list byte) (byteOffset : nat) : option Z :=
  byte_to_Z <$> buffer !! byteOffset.

Definition getUint16 (buffer : list byte) (byteOffset : nat) (littleEndian : bool)
  : option Z :=
  match getUint8 buffer byteOffset, getUint8 buffer (S byteOffset) with
  | Some b0, Some b1 =>
      Some (if littleEndian then b0 + 256 * b1 else 256 * b0 + b1)
  | _, _ => None
  end.

Record Validation : Type := { isValid : bool; message : string }.

(** The message of the [RangeError] a [DataView] getter throws; its text
    belongs to the JavaScript engine. *)
Definition RangeError_message : string :=
  "Offset is outside the bounds of the DataView".

Definition validateTiff (buffer : list byte) : Validation :=
  let caught :=
    {| isValid := false;
       message := "Error validating TIFF: " +:+ RangeError_message |} in
  if (length buffer <? 8)%nat then
    {| isValid := false; message := "File is too small to be a valid TIFF" |}
  else
    match getUint8 buffer 0, getUint8 buffer 1 with
    | Some byte1, Some byte2 =>
        let II := (byte1 =? 73) && (byte2 =? 73) in
        let MM := (byte1 =? 77) && (byte2 =? 77) in
        if negb II && negb MM then
          {| isValid := false;
             message :=
               "Invalid TIFF byte order marker: 0x" +:+ hex2 byte1 +:+ hex2 byte2 |}
        else
          match getUint16 buffer 2 II with
          | Some magicNumber =>
              if negb (magicNumber =? 42) then
                {| isValid := false;
                   message :=
                     "Invalid TIFF magic number: " +:+ decimal magicNumber
                     +:+ " (expected 42)" |}
              else {| isValid := true; message := "Valid TIFF file" |}
          | None => caught
          end
    | _, _ => caught
    end.

(** ** Progress events and the load monad *)

(** One call [onProgress(progress, stage, estimatedTime)]; [eta = None] is
    the call with the third argument left out. *)
Record ProgressEvent : Type :=
  { percent : JS.number; stage : string; eta : option JS.number }.

(** A value that is thrown, or that a promise is rejected with: an [Error]
    with its message, or any other value with its rendering [String(v)]. *)
Inductive Thrown : Type :=
  | ErrorObject (msg : string)
  | OtherValue (rendering : string).

(** A computation of [loadAndProcessTiff]: the progress events reported so
    far, and either the value thrown or a result. *)
Definition Load (A : Type) : Type := list ProgressEvent * (Thrown + A).

Definition ret {A} (a : A) : Load A := ([], inr a).

Definition bind {A B} (m : Load A) (k : A -> Load B) : Load B :=
  match m with
  | (t, inl e) => (t, inl e)
  | (t, inr a) => let '(t', r) := k a in (t ++ t', r)
  end.

(** [throw new Error(msg)] *)
Definition throw {A} (msg : string) : Load A := ([], inl (ErrorObject msg)).

(** [await] on a promise of the environment: rejected with a reason, or
    fulfilled with a value. *)
Definition await {A} (promise : Thrown + A) : Load A := ([], promise).

Definition onProgress (p : JS.number) (s : string) (t : option JS.number)
  : Load unit :=
  ([{| percent := p; stage := s; eta := t |}], inr tt).

(** [try { m } catch (e) { throw new Error(describe(e)) }] *)
Definition rethrow {A} (describe : Thrown -> string) (m : Load A) : Load A :=
  match m with
  | (t, inl e) => (t, inl (ErrorObject (describe e)))
  | (t, inr a) => (t, inr a)
  end.

(** The message built by the inner [catch (parseError)]:
    [parseError instanceof Error ? parseError.message : String(parseError)]
    after the prefix. *)
Definition parseErrorMessage (parseError : Thrown) : string :=
  "Failed to parse TIFF image: "
  +:+ match parseError with
      | ErrorObject msg => msg
      | OtherValue rendering => rendering
      end.

(** The message built by the outer [catch (error)], which has one branch
    for an [Error] and one for any other value. *)
Definition loadErrorMessage (error : Thrown) : string :=
  match error with
  | ErrorObject msg => "Failed to load TIFF image: " +:+ msg
  | OtherValue _ => "Failed to load TIFF image: Unknown error"
  end.

Notation "'let*' x ':=' m 'in' k" := (bind m (fun x => k))
  (at level 10, x name, m at level 100, k at level 200).
Notation "m ';;' k" := (bind m (fun _ => k))
  (at level 100, k at level 200, right associativity).

(** ** ByteSource: the environment of a download *)

(** A chunk delivered by [reader.read()], with the value [Date.now()]
    returns when the chunk is processed. *)
Record Chunk : Type := { value : list byte; now : Z }.

(** The body stream: the chunks in arrival order, then either [done] or a
    rejected read. *)
Record Stream : Type := { chunks : list Chunk; failure : option Thrown }.

(** A [fetch] response.  [contentLength] is [parseInt] of the
    content-length header, [None] when the header is absent or does not
    parse to a number (both take the same branch of [if (totalSize)]). *)
Record Response : Type :=
  { ok : bool;
    status : Z;
    statusText : string;
    contentLength : option Z;
    body : option Stream }.

(** ** RasterDecoder: the boundary of the TIFF library *)

Inductive BitsPerSample : Type :=
  | BitsScalar (b : Z)
  | BitsArray (b0 : Z) (rest : list Z).

Record GeoTIFFImage : Type :=
  { getWidth : nat;
    getHeight : nat;
    getSamplesPerPixel : Z;
    getBitsPerSample : BitsPerSample;
    (** [readRasters({interleave: true, samples, width, height, ...})] *)
    readRasters : list Z -> Thrown + TypedArray }.

Record GeoTIFF : Type := { getImage : Z -> Thrown + GeoTIFFImage }.

Record Env : Type :=
  { startTime : Z;
    fetch : string -> Thrown + Response;
    fromArrayBuffer : list byte -> Thrown + GeoTIFF }.

(** ** DisplayBitmap *)

Record ImageData : Type :=
  { data : list Z; width : nat; height : nat }.

(** [new ImageData(data, sw, sh)]: the constructor throws unless the length
    of [data] is a non-zero multiple of 4 equal to [4 * sw * sh]. *)
Definition ImageData_new (d : list Z) (sw sh : nat) : Thrown + ImageData :=
  if ((length d =? 0) || negb (length d =? 4 * (sw * sh)))%nat then
    inl (ErrorObject "Failed to construct 'ImageData'")
  else inr {| data := d; width := sw; height := sh |}.

(** A store [a[i] = v] into a [Uint8ClampedArray]; a store past the end is
    ignored. *)
Definition store (a : list Z) (i : nat) (v : option Z) : list Z :=
  <[ i := JS.ToUint8Clamp v ]> a.

(** [for (let i = 0; i < normalizedData.length; i++) { ... }] of the
    grayscale branch. *)
Definition grayToRGBA (normalizedData : list Z) (pixelData : list Z) : list Z :=
  foldl
    (fun px i =>
       let value := normalizedData !! i in
       let pixelIndex := (i * 4)%nat in
       store (store (store (store px pixelIndex value)
                       (pixelIndex + 1) value)
                (pixelIndex + 2) value)
         (pixelIndex + 3) (Some 255))
    pixelData (seq 0 (length normalizedData)).

(** [for (let i = 0, j = 0; i < normalizedData.length; i += 3, j += 4)] of
    the multi-band branch: iteration [k] has [i = 3k] and [j = 4k]. *)
Definition rgbToRGBA (normalizedData : list Z) (pixelData : list Z) : list Z :=
  foldl
    (fun px k =>
       let i := (3 * k)%nat in
       let j := (4 * k)%nat in
       store (store (store (store px j (normalizedData !! i))
                       (j + 1) (normalizedData !! (i + 1)%nat))
                (j + 2) (normalizedData !! (i + 2)%nat))
         (j + 3) (Some 255))
    pixelData (seq 0 ((length normalizedData + 2) / 3)).

(** ** loadAndProcessTiff *)

(** Truthiness of [totalSize]: [null], [NaN] and 0 are falsy. *)
Definition truthy (totalSize : option Z) : bool :=
  match totalSize with
  | Some n => negb (n =? 0)
  | None => false
  end.

Definition MiB : Z := 1024 * 1024.

(** The estimate reported with the second [onProgress(5, ...)]. *)
Definition initialEstimate (totalSize : option Z) : JS.number :=
  match totalSize with
  | Some n =>
      if negb (n =? 0) then
        let downloadTimeEstimate := JS.Math_ceil (JS.div (JS.of_Z n) (JS.of_Z MiB)) in
        let processingTimeEstimate :=
          JS.Math_ceil (JS.div (JS.of_Z n) (JS.of_Z (5 * MiB))) in
        JS.Math_max (JS.of_Z 3) (JS.add downloadTimeEstimate processingTimeEstimate)
      else JS.of_Z 15
  | None => JS.of_Z 15
  end.

(** The report made for one chunk when the total size is known. *)
Definition reportKnownSize (start totalSize downloadedSize time : Z)
  : ProgressEvent :=
  let downloadProgress :=
    JS.Math_min
      (JS.mul (JS.div (JS.of_Z downloadedSize) (JS.of_Z totalSize)) (JS.of_Z 50))
      (JS.of_Z 50) in
  let elapsed := time - start in
  let downloadSpeed := JS.div (JS.of_Z downloadedSize) (JS.of_Z elapsed) in
  let remainingBytes := totalSize - downloadedSize in
  let estimatedDownloadTime := JS.div (JS.of_Z remainingBytes) downloadSpeed in
  let processingTimeEstimate :=
    JS.mul (JS.div (JS.of_Z totalSize) (JS.of_Z (10 * MiB))) (JS.of_Z 1000) in
  let totalEstimatedTime := JS.add estimatedDownloadTime processingTimeEstimate in
  let estimatedSeconds :=
    JS.Math_ceil (JS.div totalEstimatedTime (JS.of_Z 1000)) in
  let showEstimate := (1024 <? downloadedSize) && (500 <? elapsed) in
  {| percent := JS.add (JS.of_Z 10) downloadProgress;
     stage := "Downloading data...";
     eta :=
       Some
         (if showEstimate then JS.Math_max (JS.of_Z 1) estimatedSeconds
          else if negb (totalSize =? 0) then
            JS.Math_ceil
              (JS.add (JS.div (JS.of_Z totalSize) (JS.of_Z MiB))
                 (JS.div (JS.of_Z totalSize) (JS.of_Z (5 * MiB))))
          else JS.of_Z 15) |}.

(** The report made for one chunk when the total size is unknown. *)
Definition reportUnknownSize (start time : Z) : ProgressEvent :=
  let elapsed := time - start in
  let baseEstimate := JS.of_Z 15 in
  let adjustedEstimate :=
    JS.Math_max (JS.of_Z 3)
      (JS.sub baseEstimate
         (JS.Math_floor (JS.div (JS.of_Z elapsed) (JS.of_Z 1000)))) in
  {| percent := JS.of_Z 20;
     stage := "Downloading data...";
     eta := Some adjustedEstimate |}.

(** The [while (true)] loop over [reader.read()]: the progress events, one
    per chunk, with the running [downloadedSize]. *)
Fixpoint downloadReports (start : Z) (totalSize : option Z)
    (downloadedSize : Z) (cs : list Chunk) : list ProgressEvent :=
  match cs with
  | [] => []
  | c :: cs' =>
      let downloadedSize := downloadedSize + Z.of_nat (length (value c)) in
      (match totalSize with
       | Some n =>
           if negb (n =? 0) then reportKnownSize start n downloadedSize (now c)
           else reportUnknownSize start (now c)
       | None => reportUnknownSize start (now c)
       end)
      :: downloadReports start totalSize downloadedSize cs'
  end.

Definition readAll (start : Z) (totalSize : option Z) (s : Stream)
  : Load (list byte) :=
  (downloadReports start totalSize 0 (chunks s),
   match failure s with
   | Some reason => inl reason
   | None => inr (concat (map value (chunks s)))
   end).

Definition bitsPerSampleValue (b : BitsPerSample) : Z :=
  match b with
  | BitsScalar v => v
  | BitsArray v _ => v
  end.

Definition grayProgressMessage (bits : Z) : string :=
  if bits =? 1 then "Processing bitonal (black & white) image..."
  else if bits =? 16 then "Processing medical/radiography image..."
  else if bits =? 32 then "Processing scientific analysis image..."
  else "Processing grayscale image...".

Definition multiProgressMessage (bits samplesPerPixel : Z) : string :=
  if (bits =? 8) && (samplesPerPixel =? 3) then
    "Processing 24-bit true color image..."
  else if (bits =? 16) && (samplesPerPixel =? 3) then
    "Processing 48-bit high-precision color image..."
  else if bits =? 16 then "Processing high-precision color image..."
  else if bits =? 32 then "Processing scientific color analysis image..."
  else "Processing multi-channel image...".

(** The normalizer the multi-band branch selects. *)
Definition normalizeMultiBand (dat : TypedArray) (bits : Z) : list Z :=
  if 16 <=? bits then normalizeToUint8Enhanced dat bits
  else normalizeToUint8 dat bits.

(** The body of the inner [try]: from the parsed image to the bitmap. *)
Definition processImage (image : GeoTIFFImage) : Load ImageData :=
  let w := getWidth image in
  let h := getHeight image in
  let samplesPerPixel := getSamplesPerPixel image in
  let bits := bitsPerSampleValue (getBitsPerSample image) in
  let* pixelData :=
    (if samplesPerPixel =? 1 then
       onProgress (JS.of_Z 85) (grayProgressMessage bits) None ;;
       let* dat := await (readRasters image [0]) in
       onProgress (JS.of_Z 90) "Converting to display format..." None ;;
       let pixelData := repeat 0 (w * h * 4)%nat in
       let normalizedData := normalizeToUint8Enhanced dat bits in
       ret (grayToRGBA normalizedData pixelData)
     else if 3 <=? samplesPerPixel then
       onProgress (JS.of_Z 85) (multiProgressMessage bits samplesPerPixel) None ;;
       let samplesToRead := [0; 1; 2] in
       let* dat := await (readRasters image samplesToRead) in
       onProgress (JS.of_Z 90) "Converting RGB to display format..." None ;;
       let pixelData := repeat 0 (w * h * 4)%nat in
       let normalizedData := normalizeMultiBand dat bits in
       ret (rgbToRGBA normalizedData pixelData)
     else
       throw ("Unsupported number of samples per pixel: "
              +:+ decimal samplesPerPixel)) in
  onProgress (JS.of_Z 95) "Creating final image..." None ;;
  let* finalImageData := await (ImageData_new pixelData w h) in
  onProgress (JS.of_Z 100) "Loading completed!" None ;;
  ret finalImageData.

Definition loadAndProcessTiff (env : Env) (url : string) : Load ImageData :=
  rethrow loadErrorMessage
    (onProgress (JS.of_Z 5) "Downloading TIFF file..." None ;;
     let* response := await (fetch env url) in
     (if negb (ok response) then
        throw ("Failed to fetch TIFF: " +:+ decimal (status response)
               +:+ " " +:+ statusText response)
      else ret tt) ;;
     let totalSize := contentLength response in
     onProgress (JS.of_Z 5) "Downloading TIFF file..."
       (Some (initialEstimate totalSize)) ;;
     let* reader :=
       (match body response with
        | Some s => ret s
        | None => throw "Could not get stream reader"
        end) in
     onProgress (JS.of_Z 10) "Downloading data..." None ;;
     let* arrayBuffer := readAll (startTime env) totalSize reader in
     onProgress (JS.of_Z 60) "Validating TIFF file..." None ;;
     let validation := validateTiff arrayBuffer in
     (if negb (isValid validation) then
        throw ("Invalid TIFF file: " +:+ message validation)
      else ret tt) ;;
     onProgress (JS.of_Z 70) "Processing TIFF image..." None ;;
     rethrow parseErrorMessage
       (let* tiff := await (fromArrayBuffer env arrayBuffer) in
        onProgress (JS.of_Z 75) "Reading image metadata..." None ;;
        let* image := await (getImage tiff 0) in
        onProgress (JS.of_Z 80) "Extracting pixel data..." None ;;
        processImage image)).

(** ** TiffViewer: the component state and its updates *)

(** The tile source handed to the pan/zoom widget; [url] stands for
    [canvas.toDataURL()] of the canvas the bitmap was put on. *)
Record TileSource : Type :=
  { url : ImageData;
    buildPyramid : bool;
    ts_width : nat;
    ts_height : nat;
    tileSize : nat;
    tileOverlap : nat;
    minLevel : nat;
    maxLevel : nat }.

Definition customTileSource (imageData : ImageData) : TileSource :=
  {| url := imageData;
     buildPyramid := false;
     ts_width := width imageData;
     ts_height := height imageData;
     tileSize := Nat.min (Nat.min (width imageData) (height imageData)) 512;
     tileOverlap := 0;
     minLevel := 0;
     maxLevel := 0 |}.

(** The React state of the component and [viewerInstance.current]. *)
Record ViewState : Type :=
  { isLoading : bool;
    error : option string;
    loadingProgress : JS.number;
    estimatedTime : option JS.number;
    loadingStage : string;
    viewerInstance : option TileSource }.

Definition initialViewState : ViewState :=
  {| isLoading := true;
     error := None;
     loadingProgress := JS.of_Z 0;
     estimatedTime := None;
     loadingStage := "Initializing...";
     viewerInstance := None |}.

(** A side effect of the component on the display state or on its caller. *)
Inductive Update : Type :=
  | SetIsLoading (b : bool)
  | SetError (e : option string)
  | SetLoadingProgress (p : JS.number)
  | SetEstimatedTime (t : option JS.number)
  | SetLoadingStage (s : string)
  | CreateViewer (ts : TileSource)
  | DestroyViewer
  | AddOpenHandler
  | CallOnError (msg : string).

Definition applyUpdate (s : ViewState) (u : Update) : ViewState :=
  match u with
  | SetIsLoading b =>
      {| isLoading := b; error := error s; loadingProgress := loadingProgress s;
         estimatedTime := estimatedTime s; loadingStage := loadingStage s;
         viewerInstance := viewerInstance s |}
  | SetError e =>
      {| isLoading := isLoading s; error := e; loadingProgress := loadingProgress s;
         estimatedTime := estimatedTime s; loadingStage := loadingStage s;
         viewerInstance := viewerInstance s |}
  | SetLoadingProgress p =>
      {| isLoading := isLoading s; error := error s; loadingProgress := p;
         estimatedTime := estimatedTime s; loadingStage := loadingStage s;
         viewerInstance := viewerInstance s |}
  | SetEstimatedTime t =>
      {| isLoading := isLoading s; error := error s;
         loadingProgress := loadingProgress s;
         estimatedTime := t; loadingStage := loadingStage s;
         viewerInstance := viewerInstance s |}
  | SetLoadingStage l =>
      {| isLoading := isLoading s; error := error s;
         loadingProgress := loadingProgress s;
         estimatedTime := estimatedTime s; loadingStage := l;
         viewerInstance := viewerInstance s |}
  | CreateViewer ts =>
      {| isLoading := isLoading s; error := error s;
         loadingProgress := loadingProgress s;
         estimatedTime := estimatedTime s; loadingStage := loadingStage s;
         viewerInstance := Some ts |}
  | DestroyViewer =>
      {| isLoading := isLoading s; error := error s;
         loadingProgress := loadingProgress s;
         estimatedTime := estimatedTime s; loadingStage := loadingStage s;
         viewerInstance := None |}
  | AddOpenHandler | CallOnError _ => s
  end.

Definition applyUpdates (s : ViewState) (us : list Update) : ViewState :=
  foldl applyUpdate s us.

(** The percent values passed to [setLoadingProgress], in order. *)
Definition progressLog (us : list Update) : list JS.number :=
  omap (fun u => match u with SetLoadingProgress p => Some p | _ => None end) us.

Record Props : Type :=
  { tiffPath : string; onError : bool; onLoad : bool }.

(** What the page provides to the component: the result of
    [loadOpenSeadragon()], whether [viewerRef.current] is set and whether
    [canvas.getContext("2d")] returns a context. *)
Record Browser : Type :=
  { openSeadragon : string + unit;
    viewerRefCurrent : bool;
    canvasContext : bool }.

(** The effect body up to the first [await]. *)
Definition effectStart : list Update :=
  [ SetLoadingProgress (JS.of_Z 0);
    SetEstimatedTime (Some (JS.of_Z 15));
    SetLoadingStage "Initializing...";
    SetIsLoading true;
    SetError None;
    SetLoadingProgress (JS.of_Z 0);
    SetEstimatedTime (Some (JS.of_Z 15));
    SetLoadingStage "Initializing...";
    SetLoadingStage "Loading OpenSeadragon...";
    SetLoadingProgress (JS.of_Z 2);
    SetEstimatedTime (Some (JS.of_Z 12)) ].

(** The progress callback passed to [loadAndProcessTiff]. *)
Definition progressSink (e : ProgressEvent) : list Update :=
  let progress := percent e in
  [ SetLoadingProgress progress;
    SetLoadingStage (stage e);
    SetEstimatedTime
      (Some
         (if match eta e with Some t => JS.lt (JS.of_Z 0) t | None => false end
          then match eta e with Some t => t | None => JS.NaN end
          else if JS.le (JS.of_Z 60) progress && JS.lt progress (JS.of_Z 100)
          then
            JS.Math_max (JS.of_Z 1)
              (JS.Math_ceil (JS.div (JS.sub (JS.of_Z 100) progress) (JS.of_Z 15)))
          else if JS.lt progress (JS.of_Z 60)
          then
            JS.Math_max (JS.of_Z 2)
              (JS.Math_ceil (JS.div (JS.sub (JS.of_Z 60) progress) (JS.of_Z 10)))
          else JS.of_Z 1)) ].

(** The message of the error the [catch] block of [initViewer] hands to
    [onError]: [err instanceof Error ? err : new Error("Unknown error")]. *)
Definition caughtMessage (err : Thrown) : string :=
  match err with
  | ErrorObject msg => msg
  | OtherValue _ => "Unknown error"
  end.

(** The [catch] block of [initViewer]; [msg] is the message of the error
    given to [onError]. *)
Definition catchBlock (props : Props) (msg : string) : list Update :=
  [SetError (Some "Failed to load TIFF image")]
  ++ (if onError props then [CallOnError msg] else [])
  ++ [SetIsLoading false].

(** The continuation of [initViewer] after [loadAndProcessTiff] resolved;
    [isMounted] is the value of the flag of this effect run at that time. *)
Definition afterLoad (props : Props) (browser : Browser) (isMounted : bool)
    (imageData : ImageData) : list Update :=
  [SetLoadingStage "Preparing viewer..."; SetLoadingProgress (JS.of_Z 98)]
  ++ (if negb (canvasContext browser) then
        catchBlock props "Could not create canvas context"
      else
        (if viewerRefCurrent browser && isMounted then
           [CreateViewer (customTileSource imageData)]
           ++ (if onLoad props then [AddOpenHandler] else [])
         else [])
        ++ [SetLoadingStage "Image loaded successfully!";
            SetLoadingProgress (JS.of_Z 100)]).

(** The callback of [setTimeout(..., 500)]. *)
Definition afterTimeout : list Update := [SetIsLoading false].

(** One run of the effect, by itself: every update of [initViewer], in
    order. [isMounted] is the value of the run's flag when
    [loadAndProcessTiff] resolves: [true], or [false] when the effect has
    run again in the meantime (the updates of that other run are not part
    of this list). *)
Definition initViewer (props : Props) (browser : Browser) (env : Env)
    (isMounted : bool) : list Update :=
  effectStart
  ++ match openSeadragon browser with
     | inl msg => catchBlock props msg
     | inr _ =>
         let '(events, result) := loadAndProcessTiff env (tiffPath props) in
         flat_map progressSink events
         ++ match result with
            | inl err => catchBlock props (caughtMessage err)
            | inr imageData =>
                afterLoad props browser isMounted imageData
                ++ (if canvasContext browser then afterTimeout else [])
            end
     end.

(** *** Superseded loads *)

(** A continuation of one effect run, resumed by the event loop. *)
Inductive Continuation : Type :=
  | OnProgress (e : ProgressEvent)
  | Loaded (imageData : ImageData)
  | Failed (msg : string)
  | Timeout.

Definition resume (props : Props) (browser : Browser) (isMounted : bool)
    (k : Continuation) : list Update :=
  match k with
  | OnProgress e => progressSink e
  | Loaded imageData => afterLoad props browser isMounted imageData
  | Failed msg => catchBlock props msg
  | Timeout => afterTimeout
  end.

(** The display state shared by all effect runs, and the [isMounted] flag
    of each run, in the order the runs started. *)
Record World : Type := { view : ViewState; mounted : list bool }.

Definition initialWorld : World :=
  {| view := initialViewState; mounted := [] |}.

Inductive Event : Type :=
  | Start                                  (* [tiffPath] changed: the effect runs *)
  | Resume (id : nat) (k : Continuation).  (* run [id] continues *)

(** The cleanup function of the previous effect run. *)
Definition cleanup (w : World) : World :=
  {| view :=
       applyUpdates (view w)
         (match viewerInstance (view w) with Some _ => [DestroyViewer] | None => [] end);
     mounted := map (fun _ => false) (mounted w) |}.

Definition step (props : Props) (browser : Browser) (w : World) (ev : Event)
  : World :=
  match ev with
  | Start =>
      let w' := cleanup w in
      {| view := applyUpdates (view w') effectStart;
         mounted := mounted w' ++ [true] |}
  | Resume id k =>
      match mounted w !! id with
      | Some isMounted =>
          {| view := applyUpdates (view w) (resume props browser isMounted k);
             mounted := mounted w |}
      | None => w
      end
  end.

Definition run (props : Props) (browser : Browser) (w : World) (evs : list Event)
  : World :=
  foldl (step props browser) w evs.

(** * Definitions used by the properties *)

(** ** The notions of the specification *)

(** The 16-bit unsigned integer made of bytes [b0] (first) and [b1]. *)
Definition uint16 (littleEndian : bool) (b0 b1 : byte) : Z :=
  if littleEndian then byte_to_Z b0 + 256 * byte_to_Z b1
  else 256 * byte_to_Z b0 + byte_to_Z b1.

(** The condition of the FormatValidator: at least 8 bytes, the byte-order
    marker "II" or "MM", and the magic number 42 at offset 2 in that byte
    order. *)
Definition plausibleTiff (buffer : list byte) : Prop :=
  (8 <= length buffer)%nat
  /\ exists b0 b1 b2 b3,
       buffer !! 0%nat = Some b0 /\ buffer !! 1%nat = Some b1
       /\ buffer !! 2%nat = Some b2 /\ buffer !! 3%nat = Some b3
       /\ ((b0 = "I"%byte /\ b1 = "I"%byte /\ uint16 true b2 b3 = 42)
           \/ (b0 = "M"%byte /\ b1 = "M"%byte /\ uint16 false b2 b3 = 42)).

(** The messages a rejected buffer can carry. *)
Definition diagnostic (msg : string) : Prop :=
  msg = "File is too small to be a valid TIFF"
  \/ (exists byte1 byte2,
        msg = "Invalid TIFF byte order marker: 0x" +:+ hex2 byte1 +:+ hex2 byte2)
  \/ (exists magicNumber,
        magicNumber <> 42
        /\ msg = "Invalid TIFF magic number: " +:+ decimal magicNumber
                 +:+ " (expected 42)").

(** The DynamicRange: [lo] and [hi] are finite samples, no finite sample is
    below [lo] and none is above [hi]. *)
Definition isDynamicRange (lo hi : JS.number) (nums : list JS.number) : Prop :=
  JS.isFinite lo = true /\ lo ∈ nums
  /\ JS.isFinite hi = true /\ hi ∈ nums
  /\ forall v, v ∈ nums -> JS.isFinite v = true ->
               JS.lt v lo = false /\ JS.lt hi v = false.

Definition clamp (x lo hi : JS.number) : JS.number :=
  JS.Math_max lo (JS.Math_min hi x).

(** round(clamp(((v - min) / (max - min)) * 255, 0, 255)) *)
Definition stretch (lo hi v : JS.number) : Z :=
  JS.ToUint8
    (JS.Math_round
       (clamp (JS.mul (JS.div (JS.sub v lo) (JS.sub hi lo)) (JS.of_Z 255))
          (JS.of_Z 0) (JS.of_Z 255))).

(** round((min / ((1 << bitsPerChannel) - 1)) * 255) *)
Definition integerFallback (bitsPerChannel : Z) (lo : JS.number) : Z :=
  JS.ToUint8
    (JS.Math_round
       (JS.mul (JS.div lo (JS.of_Z (JS.shl 1 bitsPerChannel - 1))) (JS.of_Z 255))).

(** round(255) when |min| > 1, else round(|min| * 255) *)
Definition floatFallback (lo : JS.number) : Z :=
  JS.ToUint8
    (JS.Math_round
       (if JS.lt (JS.of_Z 1) (JS.Math_abs lo) then JS.of_Z 255
        else JS.mul (JS.Math_abs lo) (JS.of_Z 255))).

Definition fallback (data : TypedArray) (bitsPerChannel : Z) (lo : JS.number) : Z :=
  match data with
  | Float32Array _ => floatFallback lo
  | _ => integerFallback bitsPerChannel lo
  end.

(** The arrays of 16-bit and 32-bit samples the normalizer treats as such:
    those it recognises with [instanceof]. *)
Definition is16or32 (data : TypedArray) : Prop :=
  match data with
  | Uint8Array _ | OtherArray _ _ => False
  | Uint16Array _ | Float32Array _ => True
  end.

(** A byte value. *)
Definition isByte (b : Z) : Prop := 0 <= b <= 255.

(** The sample array [readRasters] returned to a successful decode, with
    the number of channels read. *)
Definition rasterOf (image : GeoTIFFImage) (dat : TypedArray) (channelsRead : nat)
  : Prop :=
  (getSamplesPerPixel image = 1 /\ readRasters image [0] = inr dat
   /\ channelsRead = 1%nat)
  \/ (3 <= getSamplesPerPixel image /\ readRasters image [0; 1; 2] = inr dat
      /\ channelsRead = 3%nat).

(** Each value is at most the next one. *)
Fixpoint nonDecreasing (l : list JS.number) : bool :=
  match l with
  | x :: (y :: _) as rest => JS.le x y && nonDecreasing rest
  | _ => true
  end.

(** ** Parts of the code, named *)

(** The pair (minValue, maxValue) the enhanced normalizer computes for a
    16-bit or float array; there is none for an empty 16-bit array. *)
Definition observedRange (data : TypedArray) : option (JS.number * JS.number) :=
  match data with
  | Uint8Array _ => None
  | Uint16Array _ =>
      match samples data with
      | [] => None
      | d0 :: rest => Some (scanRange16 d0 rest)
      end
  | Float32Array d => Some (scanRange32 d)
  | OtherArray _ _ => None
  end.

(** The function folded by [scanRange32]. *)
Definition step32 (acc : JS.number * JS.number) (x : JS.number)
  : JS.number * JS.number :=
  let '(minValue, maxValue) := acc in
  if JS.isFinite x then
    ((if JS.lt x minValue then x else minValue),
     (if JS.lt maxValue x then x else maxValue))
  else (minValue, maxValue).

(** What a scan holds after the samples [seen]. *)
Definition scanned (seen : list JS.number) (acc : JS.number * JS.number) : Prop :=
  (Forall (fun v => JS.isFinite v = false) seen
   /\ acc = (JS.POSITIVE_INFINITY, JS.NEGATIVE_INFINITY))
  \/ isDynamicRange acc.1 acc.2 seen.

(** The loops of both branches of [processImage] write pixel [k] in
    iteration [k]: four stores at the offsets 4k, 4k+1, 4k+2 and 4k+3, the
    last one of 255. *)
Definition writePixel (rgb : nat -> option Z * option Z * option Z)
    (px : list Z) (k : nat) : list Z :=
  let '(r, g, b) := rgb k in
  store (store (store (store px (4 * k) r) (4 * k + 1) g) (4 * k + 2) b)
    (4 * k + 3) (Some 255).

(** The last event of a load that succeeds, and the event that opens the
    validation stage. *)
Definition completed : ProgressEvent :=
  {| percent := JS.of_Z 100; stage := "Loading completed!"; eta := None |}.

Definition validating : ProgressEvent :=
  {| percent := JS.of_Z 60; stage := "Validating TIFF file..."; eta := None |}.

(** ** The order of binary64 numbers *)

(** Numbers other than NaN are ordered like the triples (class, exponent,
    mantissa), read lexicographically; for negative numbers exponent and
    mantissa count downwards. *)
Definition rank (x : JS.number) : Z * Z * Z :=
  match x with
  | S754_nan | S754_zero _ => (0, 0, 0)
  | S754_infinity true => (-2, 0, 0)
  | S754_infinity false => (2, 0, 0)
  | S754_finite false m e => (1, e, Zpos m)
  | S754_finite true m e => (-1, - e, Zneg m)
  end.

Definition below (a b : Z * Z * Z) : Prop :=
  a.1.1 < b.1.1
  \/ (a.1.1 = b.1.1 /\ (a.1.2 < b.1.2 \/ (a.1.2 = b.1.2 /\ a.2 < b.2))).

Definition emin : Z := SpecFloat.emin JS.prec JS.emax.
Definition fexp : Z -> Z := SpecFloat.fexp JS.prec JS.emax.

(** [check] holds of the [n] integers from [x] on. *)
Fixpoint holdsFrom (check : Z -> bool) (n : nat) (x : Z) : bool :=
  match n with
  | O => true
  | S n' => check x && holdsFrom check n' (x + 1)
  end.

(** ** Sample inputs *)

(** The first eight bytes of a little-endian TIFF, in two chunks that are
    processed 200 ms and 2500 ms after the load started. *)
Definition sampleChunks : list Chunk :=
  [ {| value := ["I"; "I"; "*"; x00]%byte; now := 1200 |};
    {| value := [x08; x00; x00; x00]%byte; now := 3500 |} ].

(** A response without a content-length header. *)
Definition sampleResponse : Response :=
  {| ok := true; status := 200; statusText := "OK";
     contentLength := None;
     body := Some {| chunks := sampleChunks; failure := None |} |}.

(** A load started at time 1000 that receives [sampleResponse], whose bytes
    the TIFF library parses to [image]. *)
Definition serving (image : GeoTIFFImage) : Env :=
  {| startTime := 1000;
     fetch := fun _ => inr sampleResponse;
     fromArrayBuffer := fun _ => inr {| getImage := fun _ => inr image |} |}.

(** A 2x2 grayscale 8-bit image. *)
Definition sampleImage : GeoTIFFImage :=
  {| getWidth := 2; getHeight := 2; getSamplesPerPixel := 1;
     getBitsPerSample := BitsScalar 8;
     readRasters := fun _ => inr (Uint8Array [0; 128; 255; 64]) |}.

Definition sampleEnv : Env := serving sampleImage.

Definition sampleProps : Props :=
  {| tiffPath := "/file.tif"; onError := false; onLoad := false |}.

Definition sampleBrowser : Browser :=
  {| openSeadragon := inr tt; viewerRefCurrent := true; canvasContext := true |}.

Definition sampleBitmap : ImageData :=
  {| data := [0; 0; 0; 255]; width := 1; height := 1 |}.

(** Images of 1 bit per channel, with one and with three channels. *)
Definition bitonalGray (d : list Z) : GeoTIFFImage :=
  {| getWidth := 2; getHeight := 2; getSamplesPerPixel := 1;
     getBitsPerSample := BitsScalar 1;
     readRasters := fun _ => inr (Uint8Array d) |}.

Definition bitonalRGB (d : list Z) : GeoTIFFImage :=
  {| getWidth := 1; getHeight := 1; getSamplesPerPixel := 3;
     getBitsPerSample := BitsArray 1 [1; 1];
     readRasters := fun _ => inr (Uint8Array d) |}.

(** Images of 8 bits per channel reporting five and two samples per pixel. *)
Definition fiveBand : GeoTIFFImage :=
  {| getWidth := 1; getHeight := 1; getSamplesPerPixel := 5;
     getBitsPerSample := BitsScalar 8;
     readRasters := fun _ => inr (Uint8Array [10; 20; 30]) |}.

Definition twoBand : GeoTIFFImage :=
  {| getWidth := 1; getHeight := 1; getSamplesPerPixel := 2;
     getBitsPerSample := BitsScalar 8;
     readRasters := fun _ => inr (Uint8Array [10; 20]) |}.

(** Load A starts, then load B starts and A's cleanup clears A's flag. *)
Definition superseded : World :=
  run sampleProps sampleBrowser initialWorld [Start; Start].

(** ** More sample inputs *)

(** The bytes of [sampleResponse] in one chunk, with a content-length
    header, another status text and a later clock. *)
Definition sampleResponseOneChunk : Response :=
  {| ok := true; status := 203; statusText := "Non-Authoritative Information";
     contentLength := Some 8;
     body :=
       Some {| chunks :=
                 [ {| value := ["I"; "I"; "*"; x00; x08; x00; x00; x00]%byte;
                      now := 9000 |} ];
               failure := None |} |}.

Definition servingOneChunk (image : GeoTIFFImage) : Env :=
  {| startTime := 10;
     fetch := fun _ => inr sampleResponseOneChunk;
     fromArrayBuffer := fun _ => inr {| getImage := fun _ => inr image |} |}.

(** A response whose body is a PNG signature. *)
Definition pngResponse : Response :=
  {| ok := true; status := 200; statusText := "OK";
     contentLength := None;
     body :=
       Some {| chunks :=
                 [ {| value := [x89; "P"; "N"; "G"; x0d; x0a; x1a; x0a]%byte;
                      now := 1100 |} ];
               failure := None |} |}.

Definition servingPng : Env :=
  {| startTime := 1000;
     fetch := fun _ => inr pngResponse;
     fromArrayBuffer := fun _ => inr {| getImage := fun _ => inr sampleImage |} |}.

(** A server that answers 404. *)
Definition notFound : Env :=
  {| startTime := 1000;
     fetch := fun _ =>
       inr {| ok := false; status := 404; statusText := "Not Found";
              contentLength := None; body := None |};
     fromArrayBuffer := fun _ => inl (ErrorObject "unused") |}.

(** ** The percent values of a load without a declared size *)

(** What a load of [n] chunks reports when it succeeds. *)
Definition unknownSizePercents (n : nat) : list JS.number :=
  map JS.of_Z [5; 5; 10] ++ repeat (JS.of_Z 20) n
  ++ map JS.of_Z [60; 70; 75; 80; 85; 90; 95; 100].

(** ** The sign of a number *)

(** [x] is a number (not NaN) whose sign bit is [s]. *)
Definition signed (s : bool) (x : JS.number) : Prop :=
  match x with
  | S754_nan => False
  | S754_zero s' | S754_infinity s' | S754_finite s' _ _ => s' = s
  end.

(** ** Counting updates and events *)

Definition isCallOnError (u : Update) : bool :=
  match u with CallOnError _ => true | _ => false end.

Definition isCreateViewer (u : Update) : bool :=
  match u with CreateViewer _ => true | _ => false end.

Definition isAddOpenHandler (u : Update) : bool :=
  match u with AddOpenHandler => true | _ => false end.

Definition countUpdates (f : Update -> bool) (us : list Update) : nat :=
  length (List.filter f us).

(** One load succeeds when the widget library loaded, the pipeline returned
    a bitmap and the canvas gave a 2d context. *)
Definition succeeds (props : Props) (browser : Browser) (env : Env) : bool :=
  match openSeadragon browser, snd (loadAndProcessTiff env (tiffPath props)) with
  | inr _, inr _ => canvasContext browser
  | _, _ => false
  end.

Definition isStart (ev : Event) : bool :=
  match ev with Start => true | Resume _ _ => false end.

(** The number of effect runs started by [evs]. *)
Definition startCount (evs : list Event) : nat :=
  length (List.filter isStart evs).

(** ** Pixels *)

(** The four bytes the loops store for one pixel. *)
Definition pixelBytes (rgb : option Z * option Z * option Z) : list Z :=
  let '(r, g, b) := rgb in
  [JS.ToUint8Clamp r; JS.ToUint8Clamp g; JS.ToUint8Clamp b; 255].

(** An interleaved array cut into triples; an incomplete triple at the end
    is left out. *)
Fixpoint triples (l : list Z) : list (Z * Z * Z) :=
  match l with
  | r :: g :: b :: rest => (r, g, b) :: triples rest
  | _ => []
  end.

(** A 2x1 image of three 8-bit channels. *)
Definition sampleRGB : GeoTIFFImage :=
  {| getWidth := 2; getHeight := 1; getSamplesPerPixel := 3;
     getBitsPerSample := BitsArray 8 [8; 8];
     readRasters := fun _ => inr (Uint8Array [255; 0; 0; 10; 20; 30]) |}.

(** ** The range of a stretch *)

(** The difference of two finite samples is a finite number. For 16-bit
    data this always holds; a [Float32Array] is modelled with arbitrary
    numbers as elements, for which the difference can overflow. *)
Definition differencesFinite (data : TypedArray) : Prop :=
  match data with
  | Float32Array d =>
      forall x y, x ∈ d -> y ∈ d ->
                  JS.isFinite x = true -> JS.isFinite y = true ->
                  JS.isFinite (JS.sub y x) = true
  | _ => True
  end.

(** ** loadOpenSeadragon *)

(** What [loadOpenSeadragon] reads and writes: whether
    [window.OpenSeadragon] is defined, and the [src] of the script elements
    appended to [document.head], in order. *)
Record Page : Type := { windowOpenSeadragon : bool; headScripts : list string }.

(** What happens to the script element: [onload] fires, after the script
    did or did not define [window.OpenSeadragon], or [onerror] fires with an
    event that the template literal renders as [error]. *)
Inductive ScriptOutcome : Type :=
  | ScriptLoaded (definesOpenSeadragon : bool)
  | ScriptFailed (error : string).

Definition openSeadragonSrc : string :=
  "https://cdn.jsdelivr.net/npm/openseadragon@3.1.0/build/openseadragon/openseadragon.min.js".

(** One call, run until its promise settles: the page afterwards, and the
    message of the rejection or [tt] for the resolved library. *)
Definition loadOpenSeadragon (page : Page) (outcome : ScriptOutcome)
  : Page * (string + unit) :=
  if windowOpenSeadragon page then (page, inr tt)
  else
    let scripts := headScripts page ++ [openSeadragonSrc] in
    match outcome with
    | ScriptLoaded definesOpenSeadragon =>
        ({| windowOpenSeadragon := definesOpenSeadragon; headScripts := scripts |},
         if definesOpenSeadragon then inr tt
         else inl "OpenSeadragon not loaded")
    | ScriptFailed error =>
        ({| windowOpenSeadragon := false; headScripts := scripts |},
         inl ("Failed to load OpenSeadragon: " +:+ error))
    end.

(** Calls made one after the other, each settled before the next is made. *)
Definition loadOpenSeadragonTimes (page : Page) (outcomes : list ScriptOutcome)
  : Page :=
  foldl (fun p o => fst (loadOpenSeadragon p o)) page outcomes.

(** * Properties *)

(** ** The load monad *)

Lemma bind_inr_inv {A B} (m : Load A) (k : A -> Load B) t b :
  bind m k = (t, inr b) ->
  exists t1 a t2, m = (t1, inr a) /\ k a = (t2, inr b) /\ t = t1 ++ t2.
Proof.
  destruct m as [t1 [e | a]]; simpl; [discriminate |].
  destruct (k a) as [t2 r] eqn:Hk. intros [= <- ->]. eauto 6.
Qed.

Lemma rethrow_inr_inv {A} describe (m : Load A) t a :
  rethrow describe m = (t, inr a) -> m = (t, inr a).
Proof. destruct m as [t1 [e | a1]]; simpl; congruence. Qed.

Lemma snd_bind_onProgress {A} p s e (k : unit -> Load A) :
  snd (bind (onProgress p s e) k) = snd (k tt).
Proof. unfold bind, onProgress. destruct (k tt); reflexivity. Qed.

(** ** RasterDecoder: the three branches of [processImage] *)

Section ProcessImage.
Variable image : GeoTIFFImage.

Let w := getWidth image.
Let h := getHeight image.
Let bits := bitsPerSampleValue (getBitsPerSample image).

Lemma processImage_gray dat :
  getSamplesPerPixel image = 1 ->
  readRasters image [0] = inr dat ->
  snd (processImage image) =
    ImageData_new
      (grayToRGBA (normalizeToUint8Enhanced dat bits) (repeat 0 (w * h * 4)%nat))
      w h.
Proof using Type.
  intros Hspp Hread. unfold processImage. rewrite Hspp, Hread. simpl.
  subst w h bits.
  destruct (ImageData_new _ _ _); reflexivity.
Qed.

Lemma processImage_multi dat :
  3 <= getSamplesPerPixel image ->
  readRasters image [0; 1; 2] = inr dat ->
  snd (processImage image) =
    ImageData_new
      (rgbToRGBA (normalizeMultiBand dat bits) (repeat 0 (w * h * 4)%nat))
      w h.
Proof using Type.
  intros Hspp Hread. unfold processImage.
  destruct (getSamplesPerPixel image =? 1) eqn:E1; [lia |].
  destruct (3 <=? getSamplesPerPixel image) eqn:E3; [| lia].
  rewrite Hread. simpl. subst w h bits.
  destruct (ImageData_new _ _ _); reflexivity.
Qed.

Lemma processImage_unsupported :
  getSamplesPerPixel image <> 1 ->
  getSamplesPerPixel image < 3 ->
  processImage image =
    ([], inl (ErrorObject ("Unsupported number of samples per pixel: "
                           +:+ decimal (getSamplesPerPixel image)))).
Proof using Type.
  intros Hne Hlt. unfold processImage.
  destruct (getSamplesPerPixel image =? 1) eqn:E1; [lia |].
  destruct (3 <=? getSamplesPerPixel image) eqn:E3; [lia |].
  reflexivity.
Qed.
End ProcessImage.

(** ** C10: the two normalizers agree on 8-bit data *)

(** C10. For every 8-bit [Uint8Array] sample array, the enhanced normalizer
    with [bitsPerSample = 8] and the plain normalizer return the same
    elements, namely those of the input, so the normalizer the multi-band
    branch selects for 8-bit data gives the result of the enhanced one. *)
Theorem normalize_8bit_paths_agree (d : list Z) :
  normalizeToUint8Enhanced (Uint8Array d) 8 = normalizeToUint8 (Uint8Array d) 8
  /\ normalizeToUint8Enhanced (Uint8Array d) 8 = d
  /\ normalizeMultiBand (Uint8Array d) 8 = normalizeToUint8Enhanced (Uint8Array d) 8.
Proof. repeat split. Qed.

(** ** C3: 1-bit samples *)

(** The multi-band branch does not binarize 1-bit samples: a 1x1 RGB image
    with samples [0, 5, 0] at 1 bit per channel keeps the intensity 5 where
    binarization would give 255. *)
Lemma one_bit_rgb_not_binarized :
  getSamplesPerPixel (bitonalRGB [0; 5; 0]) = 3
  /\ bitsPerSampleValue (getBitsPerSample (bitonalRGB [0; 5; 0])) = 1
  /\ normalizeMultiBand (Uint8Array [0; 5; 0]) 1 = [0; 5; 0]
  /\ normalizeMultiBand (Uint8Array [0; 5; 0]) 1 <> map binarize [0; 5; 0]
  /\ snd (processImage (bitonalRGB [0; 5; 0]))
     = inr {| data := [0; 5; 0; 255]; width := 1; height := 1 |}.
Proof. repeat split. discriminate. Qed.

(** C3, as the code has it. With [bitsPerChannel = 1], the samples of a
    1-channel image are binarized one by one (a value above 0 gives 255,
    0 gives 0; [0, 5, 0, 255] gives [0, 255, 0, 255]), and the samples of an
    image of three or more channels are used as intensities unchanged. *)
Theorem one_bit_binarized_in_gray_branch (image : GeoTIFFImage) (d : list Z) :
  bitsPerSampleValue (getBitsPerSample image) = 1 ->
  (getSamplesPerPixel image = 1 ->
   readRasters image [0] = inr (Uint8Array d) ->
   snd (processImage image) =
     ImageData_new
       (grayToRGBA (map binarize d)
          (repeat 0 (getWidth image * getHeight image * 4)%nat))
       (getWidth image) (getHeight image))
  /\ (3 <= getSamplesPerPixel image ->
      readRasters image [0; 1; 2] = inr (Uint8Array d) ->
      snd (processImage image) =
        ImageData_new
          (rgbToRGBA d (repeat 0 (getWidth image * getHeight image * 4)%nat))
          (getWidth image) (getHeight image))
  /\ normalizeToUint8Enhanced (Uint8Array d) 1 = map binarize d
  /\ (forall x, binarize x = if 0 <? x then 255 else 0)
  /\ normalizeToUint8Enhanced (Uint8Array [0; 5; 0; 255]) 1 = [0; 255; 0; 255].
Proof.
  intros Hbits. repeat split.
  - intros Hspp Hread.
    rewrite (processImage_gray image _ Hspp Hread), Hbits. reflexivity.
  - intros Hspp Hread.
    rewrite (processImage_multi image _ Hspp Hread), Hbits. reflexivity.
Qed.

Lemma one_bit_binarized_in_gray_branch_witness :
  snd (processImage (bitonalGray [0; 5; 0; 255]))
  = ImageData_new
      (grayToRGBA (map binarize [0; 5; 0; 255]) (repeat 0 16%nat)) 2 2.
Proof.
  exact (proj1 (one_bit_binarized_in_gray_branch
                  (bitonalGray [0; 5; 0; 255]) [0; 5; 0; 255] eq_refl)
           eq_refl eq_refl).
Defined.

(** ** C2: channel layouts *)

(** An image reporting five samples per pixel is decoded, from its first
    three bands, instead of being rejected. *)
Lemma five_channels_decoded :
  getSamplesPerPixel fiveBand = 5
  /\ snd (processImage fiveBand)
     = inr {| data := [10; 20; 30; 255]; width := 1; height := 1 |}.
Proof. split; reflexivity. Qed.

(** C2, as the code has it. The decode step fails with the error
    "Unsupported number of samples per pixel" exactly for a channel count
    that is neither 1 nor at least 3 (such as 2), reporting no further
    progress and producing no bitmap; a count of 3 or more, 5 included, is
    decoded from channels 0, 1 and 2, and a count of 1 from channel 0. *)
Theorem unsupported_channel_layout (image : GeoTIFFImage) :
  (getSamplesPerPixel image <> 1 /\ getSamplesPerPixel image < 3 ->
   processImage image =
     ([], inl (ErrorObject ("Unsupported number of samples per pixel: "
                            +:+ decimal (getSamplesPerPixel image)))))
  /\ (forall dat,
        getSamplesPerPixel image = 1 ->
        readRasters image [0] = inr dat ->
        snd (processImage image) =
          ImageData_new
            (grayToRGBA
               (normalizeToUint8Enhanced dat
                  (bitsPerSampleValue (getBitsPerSample image)))
               (repeat 0 (getWidth image * getHeight image * 4)%nat))
            (getWidth image) (getHeight image))
  /\ (forall dat,
        3 <= getSamplesPerPixel image ->
        readRasters image [0; 1; 2] = inr dat ->
        snd (processImage image) =
          ImageData_new
            (rgbToRGBA
               (normalizeMultiBand dat
                  (bitsPerSampleValue (getBitsPerSample image)))
               (repeat 0 (getWidth image * getHeight image * 4)%nat))
            (getWidth image) (getHeight image)).
Proof.
  repeat split.
  - intros [Hne Hlt]. by apply processImage_unsupported.
  - intros dat. apply processImage_gray.
  - intros dat. apply processImage_multi.
Qed.

Lemma unsupported_channel_layout_witness :
  processImage twoBand
  = ([], inl (ErrorObject "Unsupported number of samples per pixel: 2")).
Proof.
  apply (proj1 (unsupported_channel_layout twoBand)).
  split; simpl; lia.
Defined.

(** Seen from [loadAndProcessTiff], the error carries the prefixes of the
    two [catch] blocks it passes through, and the load stops at 80 percent. *)
Example unsupported_layout_load :
  snd (loadAndProcessTiff (serving twoBand) "/file.tif")
  = inl (ErrorObject ("Failed to load TIFF image: Failed to parse TIFF image: "
                      +:+ "Unsupported number of samples per pixel: 2"))
  /\ map percent (fst (loadAndProcessTiff (serving twoBand) "/file.tif"))
     = map JS.of_Z [5; 5; 10; 20; 20; 60; 70; 75; 80].
Proof. split; vm_compute; reflexivity. Qed.

(** ** C6: FormatValidator *)

Lemma byte_to_Z_I b : byte_to_Z b = 73 <-> b = "I"%byte.
Proof. split; [destruct b; (reflexivity || discriminate) | by intros ->]. Qed.

Lemma byte_to_Z_M b : byte_to_Z b = 77 <-> b = "M"%byte.
Proof. split; [destruct b; (reflexivity || discriminate) | by intros ->]. Qed.

(** Past the length check, [validateTiff] in terms of the first four bytes. *)
Lemma validateTiff_header b0 b1 b2 b3 rest :
  (8 <= length (b0 :: b1 :: b2 :: b3 :: rest))%nat ->
  validateTiff (b0 :: b1 :: b2 :: b3 :: rest) =
    let II := (byte_to_Z b0 =? 73) && (byte_to_Z b1 =? 73) in
    let MM := (byte_to_Z b0 =? 77) && (byte_to_Z b1 =? 77) in
    if negb II && negb MM then
      {| isValid := false;
         message :=
           "Invalid TIFF byte order marker: 0x" +:+ hex2 (byte_to_Z b0)
           +:+ hex2 (byte_to_Z b1) |}
    else if negb (uint16 II b2 b3 =? 42) then
      {| isValid := false;
         message :=
           "Invalid TIFF magic number: " +:+ decimal (uint16 II b2 b3)
           +:+ " (expected 42)" |}
    else {| isValid := true; message := "Valid TIFF file" |}.
Proof.
  intros Hlen. unfold validateTiff.
  destruct (length (b0 :: b1 :: b2 :: b3 :: rest) <? 8)%nat eqn:E.
  { apply Nat.ltb_lt in E. lia. }
  reflexivity.
Qed.

(** C6. For every buffer, [validateTiff] returns a record, and never through
    its exception handler; the record has [isValid = true] exactly when the
    buffer has at least 8 bytes, starts with "II" or "MM" and holds 42 at
    offset 2 in the byte order of the marker (little-endian for "II",
    big-endian for "MM"); every other buffer gets [isValid = false] and one
    of the three diagnostic messages. *)
Theorem validateTiff_correct (buffer : list byte) :
  (isValid (validateTiff buffer) = true <-> plausibleTiff buffer)
  /\ (isValid (validateTiff buffer) = true ->
      message (validateTiff buffer) = "Valid TIFF file")
  /\ (isValid (validateTiff buffer) = false ->
      diagnostic (message (validateTiff buffer)))
  /\ message (validateTiff buffer)
     <> "Error validating TIFF: " +:+ RangeError_message.
Proof.
  destruct (decide (8 <= length buffer)%nat) as [Hlen | Hshort].
  - destruct buffer as [| b0 [| b1 [| b2 [| b3 rest]]]]; simpl in Hlen; try lia.
    rewrite validateTiff_header by (simpl; lia). cbv zeta.
    assert (Hplaus : plausibleTiff (b0 :: b1 :: b2 :: b3 :: rest) <->
              (b0 = "I"%byte /\ b1 = "I"%byte /\ uint16 true b2 b3 = 42)
              \/ (b0 = "M"%byte /\ b1 = "M"%byte /\ uint16 false b2 b3 = 42)).
    { split.
      - intros (_ & c0 & c1 & c2 & c3 & [= <-] & [= <-] & [= <-] & [= <-] & H).
        exact H.
      - intros H. split; [simpl; lia |]. exists b0, b1, b2, b3. by repeat split. }
    rewrite Hplaus, <- !byte_to_Z_I, <- !byte_to_Z_M.
    destruct (Z.eqb_spec (byte_to_Z b0) 73) as [E0 | E0];
      destruct (Z.eqb_spec (byte_to_Z b1) 73) as [E1 | E1];
      destruct (Z.eqb_spec (byte_to_Z b0) 77) as [F0 | F0];
      destruct (Z.eqb_spec (byte_to_Z b1) 77) as [F1 | F1];
      try lia; cbn [andb negb];
      try (destruct (Z.eqb_spec (uint16 true b2 b3) 42) as [G | G]);
      try (destruct (Z.eqb_spec (uint16 false b2 b3) 42) as [G' | G']);
      cbn [negb isValid message]; unfold diagnostic;
      (split; [split; [try discriminate; intros _; tauto | intuition congruence] |]);
      (split; [try discriminate; reflexivity |]);
      (split; [try discriminate; intros _; eauto 7 | discriminate]).
  - assert (validateTiff buffer
            = {| isValid := false;
                 message := "File is too small to be a valid TIFF" |}) as ->.
    { unfold validateTiff.
      destruct (length buffer <? 8)%nat eqn:E; [reflexivity |].
      apply Nat.ltb_ge in E. lia. }
    repeat split; simpl; try discriminate.
    + intros [Hlen _]. lia.
    + intros _. by left.
Qed.

(** The two headers of the specification's examples. *)
Example validateTiff_II :
  validateTiff ["I"; "I"; "*"; x00; x08; x00; x00; x00]%byte
  = {| isValid := true; message := "Valid TIFF file" |}.
Proof. reflexivity. Qed.

Example validateTiff_MM :
  validateTiff ["M"; "M"; x00; "*"; x00; x00; x00; x08]%byte
  = {| isValid := true; message := "Valid TIFF file" |}.
Proof. reflexivity. Qed.

(** ** A sample load *)

(** The end-to-end scenario of the specification. *)
Example sample_bitmap :
  snd (loadAndProcessTiff sampleEnv "/file.tif")
  = inr {| data := [0; 0; 0; 255; 128; 128; 128; 255;
                    255; 255; 255; 255; 64; 64; 64; 255];
           width := 2; height := 2 |}.
Proof. vm_compute. reflexivity. Qed.

(** ** C8: progress without a declared total size *)

(** Without a content-length, the two chunks of the sample load, which
    arrive 2.3 seconds apart, are both reported at 20 percent; only the
    estimated time differs (15 and 13 seconds). *)
Lemma unknown_size_percent_stalls :
  contentLength sampleResponse = None
  /\ map percent
       (downloadReports (startTime sampleEnv) (contentLength sampleResponse)
          0 sampleChunks)
     = [JS.of_Z 20; JS.of_Z 20]
  /\ map eta
       (downloadReports (startTime sampleEnv) (contentLength sampleResponse)
          0 sampleChunks)
     = [Some (JS.of_Z 15); Some (JS.of_Z 13)]
  /\ map percent (fst (loadAndProcessTiff sampleEnv "/file.tif"))
     = map JS.of_Z [5; 5; 10; 20; 20; 60; 70; 75; 80; 85; 90; 95; 100].
Proof. repeat split; vm_compute; reflexivity. Qed.

(** C8, as the code has it. When no total size is declared (no
    content-length, or one that is 0), every chunk of the download is
    reported at the fixed value of 20 percent; what follows the elapsed
    time is the estimate, max(3, 15 - floor(elapsed / 1000)) seconds. *)
Theorem unknown_size_reports (start downloadedSize : Z) (totalSize : option Z)
    (cs : list Chunk) :
  truthy totalSize = false ->
  downloadReports start totalSize downloadedSize cs
  = map (fun c =>
           {| percent := JS.of_Z 20;
              stage := "Downloading data...";
              eta :=
                Some
                  (JS.Math_max (JS.of_Z 3)
                     (JS.sub (JS.of_Z 15)
                        (JS.Math_floor
                           (JS.div (JS.of_Z (now c - start)) (JS.of_Z 1000))))) |})
      cs.
Proof.
  intros Hfalsy. revert downloadedSize.
  induction cs as [| c cs IH]; intros downloadedSize; [reflexivity |].
  cbn [downloadReports map]. rewrite IH. f_equal.
  destruct totalSize as [n |]; [| reflexivity].
  simpl in Hfalsy. by rewrite Hfalsy.
Qed.

Lemma unknown_size_reports_witness :
  downloadReports 1000 None 0 sampleChunks
  = map (fun c =>
           {| percent := JS.of_Z 20;
              stage := "Downloading data...";
              eta :=
                Some
                  (JS.Math_max (JS.of_Z 3)
                     (JS.sub (JS.of_Z 15)
                        (JS.Math_floor
                           (JS.div (JS.of_Z (now c - 1000)) (JS.of_Z 1000))))) |})
      sampleChunks.
Proof. apply (unknown_size_reports 1000 0 None sampleChunks). reflexivity. Defined.

(** ** C4: the order of the reported percent values *)

Lemma nonDecreasing_app_inv l1 l2 :
  nonDecreasing (l1 ++ l2) = true -> nonDecreasing l2 = true.
Proof.
  induction l1 as [| x l1 IH]; [done |].
  destruct l1 as [| y l1]; simpl.
  - destruct l2; [done |]. by intros [_ H]%andb_prop.
  - intros [_ H]%andb_prop. by apply IH.
Qed.

(** C4 at the sample load. The values passed to [setLoadingProgress] by one
    successful load are 0, 0, 2, the values of the progress sink (5 up to
    100, themselves in non-decreasing order), and then 98 and 100: the
    progress state falls from 100 back to 98, whether or not the run has
    been superseded. *)
Theorem progress_state_drops_after_completion (isMounted : bool) :
  progressLog (initViewer sampleProps sampleBrowser sampleEnv isMounted)
  = map JS.of_Z [0; 0; 2; 5; 5; 10; 20; 20; 60; 70; 75; 80; 85; 90; 95; 100; 98; 100]
  /\ nonDecreasing
       (progressLog (initViewer sampleProps sampleBrowser sampleEnv isMounted))
     = false
  /\ nonDecreasing (map percent (fst (loadAndProcessTiff sampleEnv "/file.tif")))
     = true.
Proof. destruct isMounted; repeat split; vm_compute; reflexivity. Qed.

(** The drop is not particular to the sample: a load that succeeds always
    reports 100 last, and [initViewer] then sets 98. *)
Lemma processImage_success_last image t img :
  processImage image = (t, inr img) -> exists t', t = t' ++ [completed].
Proof.
  unfold processImage. intros H.
  apply bind_inr_inv in H as (t1 & px & t2 & _ & H & ->).
  apply bind_inr_inv in H as (t3 & [] & t4 & _ & H & ->).
  apply bind_inr_inv in H as (t5 & fin & t6 & _ & H & ->).
  apply bind_inr_inv in H as (t7 & [] & t8 & H7 & H8 & ->).
  injection H7 as <-. injection H8 as <- _.
  exists (t1 ++ t3 ++ t5). by rewrite <- !app_assoc, app_nil_r.
Qed.

Lemma loadAndProcessTiff_success_last env path t img :
  loadAndProcessTiff env path = (t, inr img) -> exists t', t = t' ++ [completed].
Proof.
  unfold loadAndProcessTiff. intros H. apply rethrow_inr_inv in H.
  do 10 (apply bind_inr_inv in H as (? & ? & ? & _ & H & ->)).
  apply rethrow_inr_inv in H.
  do 4 (apply bind_inr_inv in H as (? & ? & ? & _ & H & ->)).
  apply processImage_success_last in H as [t' ->].
  eexists. rewrite !app_assoc. reflexivity.
Qed.

Lemma progressLog_app us1 us2 :
  progressLog (us1 ++ us2) = progressLog us1 ++ progressLog us2.
Proof. apply omap_app. Qed.

Lemma progressLog_sink events :
  progressLog (flat_map progressSink events) = map percent events.
Proof.
  induction events as [| e events IH]; [reflexivity |].
  cbn [flat_map map]. by rewrite progressLog_app, IH.
Qed.

Lemma progressLog_afterLoad props browser isMounted img :
  canvasContext browser = true ->
  progressLog (afterLoad props browser isMounted img)
  = [JS.of_Z 98; JS.of_Z 100].
Proof.
  intros Hctx. unfold afterLoad. rewrite Hctx. simpl.
  destruct (viewerRefCurrent browser && isMounted), (onLoad props); reflexivity.
Qed.

Lemma successful_load_progress_drops props browser env isMounted events img :
  openSeadragon browser = inr tt ->
  canvasContext browser = true ->
  loadAndProcessTiff env (tiffPath props) = (events, inr img) ->
  nonDecreasing (progressLog (initViewer props browser env isMounted)) = false.
Proof.
  intros Hosd Hctx Hload. unfold initViewer. rewrite Hosd, Hload, Hctx.
  destruct (loadAndProcessTiff_success_last _ _ _ _ Hload) as [t' ->].
  rewrite !progressLog_app, progressLog_sink,
    (progressLog_afterLoad _ _ _ _ Hctx), map_app.
  apply not_true_is_false. intros H.
  apply nonDecreasing_app_inv in H.
  rewrite <- app_assoc in H. apply nonDecreasing_app_inv in H.
  vm_compute in H. discriminate.
Qed.

(** ** C9: a superseded load *)

(** C9 at the superseded load. After load B has started, load A's flag is
    cleared, yet its progress callback overwrites the percent, stage and
    estimate that B had set, its completion overwrites stage and percent,
    and its failure sets the error and ends the loading state; only the
    creation of the viewer is skipped. *)
Theorem stale_load_mutates_display_state :
  mounted superseded = [false; true]
  /\ loadingProgress (view superseded) = JS.of_Z 2
  /\ loadingProgress
       (view (step sampleProps sampleBrowser superseded
                (Resume 0 (OnProgress validating)))) = JS.of_Z 60
  /\ loadingStage
       (view (step sampleProps sampleBrowser superseded
                (Resume 0 (OnProgress validating)))) = "Validating TIFF file..."
  /\ loadingProgress
       (view (step sampleProps sampleBrowser superseded
                (Resume 0 (Loaded sampleBitmap)))) = JS.of_Z 100
  /\ viewerInstance
       (view (step sampleProps sampleBrowser superseded
                (Resume 0 (Loaded sampleBitmap)))) = None
  /\ error
       (view (step sampleProps sampleBrowser superseded
                (Resume 0 (Failed "Failed to load TIFF image: x"))))
     = Some "Failed to load TIFF image"
  /\ isLoading
       (view (step sampleProps sampleBrowser superseded (Resume 0 Timeout)))
     = false.
Proof. repeat split. Qed.

(** What the flag does guard: a continuation of a superseded load never
    changes [viewerInstance]. *)
Lemma viewerInstance_applyUpdates s us :
  Forall (fun u => match u with
                   | CreateViewer _ | DestroyViewer => False
                   | _ => True
                   end) us ->
  viewerInstance (applyUpdates s us) = viewerInstance s.
Proof.
  unfold applyUpdates. intros H. revert s.
  induction H as [| u us Hu _ IH]; intros s; [reflexivity |].
  simpl. rewrite IH. by destruct u.
Qed.

Lemma stale_load_creates_no_viewer props browser w id k :
  mounted w !! id = Some false ->
  viewerInstance (view (step props browser w (Resume id k)))
  = viewerInstance (view w).
Proof.
  intros Hstale. simpl. rewrite Hstale. simpl.
  apply viewerInstance_applyUpdates.
  destruct k; simpl; unfold afterLoad, catchBlock;
    rewrite ?andb_false_r;
    repeat first [ progress simpl | constructor | done
                 | match goal with |- context [if ?b then _ else _] => destruct b end ].
Qed.

(** ** C5: the DisplayBitmap *)

Lemma normalizeToUint8Enhanced_length dat bits :
  length (normalizeToUint8Enhanced dat bits) = TypedArray_length dat.
Proof.
  destruct dat as [d | d | d | t d]; simpl.
  - destruct (bits =? 1); by rewrite ?length_map.
  - destruct d as [| d0 rest]; [done |]. cbn [map].
    destruct (scanRange16 _ _) as [lo hi].
    destruct (JS.lt _ _); cbn [length map];
      by rewrite ?length_map, ?repeat_length.
  - destruct (scanRange32 d) as [lo hi].
    destruct (negb (JS.isFinite lo) || negb (JS.isFinite hi));
      [by rewrite repeat_length |].
    destruct (JS.lt (JS.of_Z 0) (JS.sub hi lo));
      by rewrite ?length_map, ?repeat_length.
  - by rewrite repeat_length.
Qed.

Lemma normalizeToUint8_length dat bits :
  length (normalizeToUint8 dat bits) = TypedArray_length dat.
Proof. destruct dat; simpl; by rewrite ?length_map, ?repeat_length. Qed.

Lemma normalizeMultiBand_length dat bits :
  length (normalizeMultiBand dat bits) = TypedArray_length dat.
Proof.
  unfold normalizeMultiBand. destruct (16 <=? bits);
    auto using normalizeToUint8Enhanced_length, normalizeToUint8_length.
Qed.

Lemma ToUint8Clamp_isByte v : isByte (JS.ToUint8Clamp v).
Proof. unfold isByte. destruct v; simpl; lia. Qed.

Lemma store_length a i v : length (store a i v) = length a.
Proof. apply length_insert. Qed.

Lemma store_isByte a i v : Forall isByte a -> Forall isByte (store a i v).
Proof. intros H. apply Forall_insert; auto using ToUint8Clamp_isByte. Qed.

Section PixelLoop.
Variable rgb : nat -> option Z * option Z * option Z.

Lemma writePixel_length px k : length (writePixel rgb px k) = length px.
Proof using Type.
  unfold writePixel. destruct (rgb k) as [[r g] b]. by rewrite !store_length.
Qed.

Lemma writePixel_isByte px k :
  Forall isByte px -> Forall isByte (writePixel rgb px k).
Proof using Type.
  unfold writePixel. destruct (rgb k) as [[r g] b]. auto using store_isByte.
Qed.

Lemma writePixel_alpha px k :
  (4 * k + 3 < length px)%nat -> writePixel rgb px k !! (4 * k + 3)%nat = Some 255.
Proof using Type.
  intros Hlt. unfold writePixel. destruct (rgb k) as [[r g] b].
  unfold store at 1. apply list_lookup_insert_eq. by rewrite !store_length.
Qed.

Lemma writePixel_other px k p :
  p <> k -> writePixel rgb px k !! (4 * p + 3)%nat = px !! (4 * p + 3)%nat.
Proof using Type.
  intros Hne. unfold writePixel, store. destruct (rgb k) as [[r g] b].
  rewrite !list_lookup_insert_ne by lia. reflexivity.
Qed.

Lemma pixelLoop_length px n :
  length (foldl (writePixel rgb) px (seq 0 n)) = length px.
Proof using Type.
  induction n as [| n IH]; [done |].
  by rewrite seq_S, foldl_app; cbn [foldl]; rewrite writePixel_length.
Qed.

Lemma pixelLoop_isByte px n :
  Forall isByte px -> Forall isByte (foldl (writePixel rgb) px (seq 0 n)).
Proof using Type.
  intros H. induction n as [| n IH]; [done |].
  rewrite seq_S, foldl_app. cbn [foldl]. by apply writePixel_isByte.
Qed.

Lemma pixelLoop_alpha px n p :
  (p < n)%nat -> (4 * p + 3 < length px)%nat ->
  foldl (writePixel rgb) px (seq 0 n) !! (4 * p + 3)%nat = Some 255.
Proof using Type.
  intros Hp Hlen. induction n as [| n IH]; [lia |].
  rewrite seq_S, foldl_app, Nat.add_0_l. cbn [foldl].
  destruct (decide (p = n)) as [-> | Hne].
  - apply writePixel_alpha. by rewrite pixelLoop_length.
  - rewrite writePixel_other by done. apply IH. lia.
Qed.
End PixelLoop.

Lemma grayToRGBA_pixelLoop nd px :
  grayToRGBA nd px
  = foldl (writePixel (fun i => (nd !! i, nd !! i, nd !! i))) px
      (seq 0 (length nd)).
Proof.
  unfold grayToRGBA. generalize (seq 0 (length nd)) as l. intros l. revert px.
  induction l as [| i l IH]; intros px; [done |].
  simpl. rewrite IH. unfold writePixel. by rewrite (Nat.mul_comm i 4).
Qed.

Lemma rgbToRGBA_pixelLoop nd px :
  rgbToRGBA nd px
  = foldl (writePixel (fun k => (nd !! (3 * k)%nat, nd !! (3 * k + 1)%nat,
                                  nd !! (3 * k + 2)%nat))) px
      (seq 0 ((length nd + 2) / 3)).
Proof. reflexivity. Qed.

Lemma ImageData_new_inr d sw sh bitmap :
  ImageData_new d sw sh = inr bitmap ->
  bitmap = {| data := d; width := sw; height := sh |}
  /\ length d = (4 * (sw * sh))%nat.
Proof.
  unfold ImageData_new.
  destruct (length d =? 0)%nat eqn:E0; [done |].
  destruct (length d =? 4 * (sw * sh))%nat eqn:E1; [| done].
  simpl. intros [= <-]. split; [done |]. by apply Nat.eqb_eq.
Qed.

(** C5. Whenever the decode of a 1-channel or multi-channel image succeeds,
    at any bit depth and for any type of the sample array (the three the
    code tests for and the others the TIFF library returns), and the
    sample array has width * height * channelsRead elements, the bitmap has
    the image's width and height, exactly width * height * 4 bytes, every
    byte within 0..255, and the alpha byte of every pixel equal to 255. *)
Theorem bitmap_invariants (image : GeoTIFFImage) (dat : TypedArray)
    (channelsRead : nat) (events : list ProgressEvent) (bitmap : ImageData) :
  processImage image = (events, inr bitmap) ->
  rasterOf image dat channelsRead ->
  TypedArray_length dat = (getWidth image * getHeight image * channelsRead)%nat ->
  width bitmap = getWidth image
  /\ height bitmap = getHeight image
  /\ length (data bitmap) = (width bitmap * height bitmap * 4)%nat
  /\ Forall (fun b => 0 <= b <= 255) (data bitmap)
  /\ forall p, (p < width bitmap * height bitmap)%nat ->
               data bitmap !! (4 * p + 3)%nat = Some 255.
Proof.
  intros Hok Hraster Hlen.
  assert (Hsnd : snd (processImage image) = inr bitmap) by by rewrite Hok.
  assert (Hzero : Forall isByte (repeat 0 (getWidth image * getHeight image * 4)%nat)).
  { induction (getWidth image * getHeight image * 4)%nat; constructor;
      [unfold isByte; lia | done]. }
  destruct Hraster as [(Hspp & Hread & ->) | (Hspp & Hread & ->)].
  - rewrite (processImage_gray image dat Hspp Hread) in Hsnd.
    apply ImageData_new_inr in Hsnd as [-> Hsize]. simpl.
    rewrite grayToRGBA_pixelLoop in *.
    rewrite pixelLoop_length, repeat_length in *.
    refine (conj eq_refl (conj eq_refl (conj _ (conj _ _)))).
    + reflexivity.
    + by apply pixelLoop_isByte.
    + intros p Hp. apply pixelLoop_alpha.
      * rewrite normalizeToUint8Enhanced_length, Hlen. lia.
      * rewrite repeat_length. lia.
  - rewrite (processImage_multi image dat Hspp Hread) in Hsnd.
    apply ImageData_new_inr in Hsnd as [-> Hsize]. simpl.
    rewrite rgbToRGBA_pixelLoop in *.
    rewrite pixelLoop_length, repeat_length in *.
    refine (conj eq_refl (conj eq_refl (conj _ (conj _ _)))).
    + reflexivity.
    + by apply pixelLoop_isByte.
    + intros p Hp. apply pixelLoop_alpha.
      * rewrite normalizeMultiBand_length, Hlen.
        replace (getWidth image * getHeight image * 3 + 2)%nat
          with (2 + (getWidth image * getHeight image) * 3)%nat by lia.
        rewrite Nat.div_add by lia. simpl. lia.
      * rewrite repeat_length. lia.
Qed.

Lemma bitmap_invariants_witness :
  let bitmap :=
    {| data := [0; 0; 0; 255; 128; 128; 128; 255;
                255; 255; 255; 255; 64; 64; 64; 255];
       width := 2; height := 2 |} in
  width bitmap = 2%nat
  /\ height bitmap = 2%nat
  /\ length (data bitmap) = (width bitmap * height bitmap * 4)%nat
  /\ Forall (fun b => 0 <= b <= 255) (data bitmap)
  /\ forall p, (p < width bitmap * height bitmap)%nat ->
               data bitmap !! (4 * p + 3)%nat = Some 255.
Proof.
  exact (bitmap_invariants sampleImage (Uint8Array [0; 128; 255; 64]) 1 _ _
           eq_refl (or_introl (conj eq_refl (conj eq_refl eq_refl))) eq_refl).
Defined.

(** ** The order of JavaScript numbers *)

Lemma lt_rank x y :
  x <> JS.NaN -> y <> JS.NaN -> JS.lt x y = true <-> below (rank x) (rank y).
Proof.
  intros Hx Hy. unfold JS.lt, SFltb, SFcompare, below.
  destruct x as [sx | sx | | sx mx ex], y as [sy | sy | | sy my ey];
    try done; try destruct sx; try destruct sy; simpl;
    try (split; [discriminate | lia]); try (split; [lia | done]);
    try (split; [done | lia]).
  - rewrite Pos.compare_cont_spec. simpl.
    destruct (Z.compare_spec ex ey) as [-> | Hlt | Hgt];
      [destruct (Pos.compare_spec mx my) as [-> | Hm | Hm] | |];
      simpl; split; (discriminate || lia || done).
  - rewrite Pos.compare_cont_spec. simpl.
    destruct (Z.compare_spec ex ey) as [-> | Hlt | Hgt];
      [destruct (Pos.compare_spec mx my) as [-> | Hm | Hm] | |];
      simpl; split; (discriminate || lia || done).
Qed.

Lemma lt_not_NaN x y : JS.lt x y = true -> x <> JS.NaN /\ y <> JS.NaN.
Proof.
  unfold JS.lt, SFltb, SFcompare.
  destruct x, y; try discriminate; by split.
Qed.

Lemma lt_irrefl x : JS.lt x x = false.
Proof.
  destruct (JS.lt x x) eqn:E; [| done].
  destruct (lt_not_NaN _ _ E) as [Hx _].
  apply lt_rank in E; [| done | done]. unfold below in E. lia.
Qed.

Lemma lt_trans x y z : JS.lt x y = true -> JS.lt y z = true -> JS.lt x z = true.
Proof.
  intros Hxy Hyz.
  destruct (lt_not_NaN _ _ Hxy) as [Hx Hy], (lt_not_NaN _ _ Hyz) as [_ Hz].
  apply lt_rank in Hxy, Hyz; try done. apply lt_rank; try done.
  unfold below in *. lia.
Qed.

Lemma lt_asym x y : JS.lt x y = true -> JS.lt y x = false.
Proof.
  intros Hxy. destruct (JS.lt y x) eqn:E; [| done].
  pose proof (lt_trans _ _ _ Hxy E) as H. by rewrite lt_irrefl in H.
Qed.

(** ** Rounding never loses a positive value *)

Lemma fexp_ge_emin z : emin <= fexp z.
Proof. unfold fexp, SpecFloat.fexp, emin. lia. Qed.

Lemma digits2_pos_bounds m :
  2 ^ (Zpos (digits2_pos m) - 1) <= Zpos m < 2 ^ Zpos (digits2_pos m).
Proof.
  induction m as [m IH | m IH |]; cbn [digits2_pos]; [| | simpl; lia].
  - rewrite Pos2Z.inj_succ, (Pos2Z.inj_xI m).
    replace (Z.succ (Zpos (digits2_pos m)) - 1)
      with (Z.succ (Zpos (digits2_pos m) - 1)) by lia.
    rewrite !Z.pow_succ_r by lia. lia.
  - rewrite Pos2Z.inj_succ, (Pos2Z.inj_xO m).
    replace (Z.succ (Zpos (digits2_pos m)) - 1)
      with (Z.succ (Zpos (digits2_pos m) - 1)) by lia.
    rewrite !Z.pow_succ_r by lia. lia.
Qed.

Lemma shr_1_m mrs :
  0 <= shr_m mrs -> shr_m (shr_1 mrs) = Z.shiftr (shr_m mrs) 1.
Proof.
  destruct mrs as [m r s]. simpl.
  destruct m as [| [p | p |] |]; try reflexivity; lia.
Qed.

Lemma shr_1_nonneg mrs : 0 <= shr_m mrs -> 0 <= shr_m (shr_1 mrs).
Proof. intros H. rewrite shr_1_m by done. by apply Z.shiftr_nonneg. Qed.

Lemma shr_iter_nonneg p : forall mrs,
  0 <= shr_m mrs -> 0 <= shr_m (SpecFloat.iter_pos shr_1 p mrs).
Proof.
  induction p as [p IH | p IH |]; intros mrs Hm; cbn [SpecFloat.iter_pos];
    auto using shr_1_nonneg.
Qed.

Lemma shr_m_iter p : forall mrs,
  0 <= shr_m mrs ->
  shr_m (SpecFloat.iter_pos shr_1 p mrs) = Z.shiftr (shr_m mrs) (Zpos p).
Proof.
  induction p as [p IH | p IH |]; intros mrs Hm; cbn [SpecFloat.iter_pos].
  - rewrite !IH, shr_1_m by auto using shr_1_nonneg, shr_iter_nonneg.
    rewrite !Z.shiftr_shiftr by lia. f_equal. lia.
  - rewrite !IH by auto using shr_iter_nonneg.
    rewrite !Z.shiftr_shiftr by lia. f_equal. lia.
  - by apply shr_1_m.
Qed.

Lemma shr_record_of_loc_m m l : shr_m (shr_record_of_loc m l) = m.
Proof. by destruct l as [| []]. Qed.

(** Shifting a positive mantissa to its canonical exponent keeps it
    positive, provided the exponent is not below [emin]. *)
Lemma shr_fexp_pos m e l :
  emin <= e ->
  0 < shr_m (shr_fexp JS.prec JS.emax (Zpos m) e l).1
  /\ emin <= (shr_fexp JS.prec JS.emax (Zpos m) e l).2.
Proof.
  intros He. unfold shr_fexp, shr. cbn [Zdigits2].
  pose proof (digits2_pos_bounds m) as [Hlo _].
  set (d := Zpos (digits2_pos m)) in *.
  destruct (SpecFloat.fexp JS.prec JS.emax (d + e) - e) as [| p | p] eqn:En;
    cbn [fst snd]; rewrite ?shr_record_of_loc_m; try lia.
  rewrite shr_m_iter by (rewrite shr_record_of_loc_m; lia).
  rewrite shr_record_of_loc_m, Z.shiftr_div_pow2 by lia.
  unfold SpecFloat.fexp, emin, SpecFloat.emin, JS.prec, JS.emax in *.
  split; [| lia].
  apply Z.div_str_pos. split; [lia |].
  transitivity (2 ^ (d - 1)); [| done].
  apply Z.pow_le_mono_r; lia.
Qed.

Lemma round_nearest_even_ge m l : m <= round_nearest_even m l.
Proof.
  destruct l as [| []]; simpl; try lia. destruct (Z.even m); lia.
Qed.

Lemma binary_round_aux_pos m e l :
  emin <= e ->
  JS.lt (JS.of_Z 0) (binary_round_aux JS.prec JS.emax false (Zpos m) e l) = true.
Proof.
  intros He. unfold binary_round_aux.
  pose proof (shr_fexp_pos m e l He) as [Hm1 He1].
  destruct (shr_fexp JS.prec JS.emax (Zpos m) e l) as [mrs1 e1].
  cbn [fst snd] in *.
  pose proof (round_nearest_even_ge (shr_m mrs1) (loc_of_shr_record mrs1)) as Hr.
  destruct (round_nearest_even (shr_m mrs1) (loc_of_shr_record mrs1))
    as [| m2 | m2]; try lia.
  pose proof (shr_fexp_pos m2 e1 loc_Exact He1) as [Hm2 _].
  destruct (shr_fexp JS.prec JS.emax (Zpos m2) e1 loc_Exact) as [mrs2 e2].
  cbn [fst snd] in *.
  destruct (shr_m mrs2) as [| m3 | m3]; try lia.
  by destruct (e2 <=? JS.emax - JS.prec).
Qed.

Lemma binary_normalize_pos n e :
  0 < n -> emin <= e ->
  JS.lt (JS.of_Z 0) (binary_normalize JS.prec JS.emax n e false) = true.
Proof.
  intros Hn He. destruct n as [| p | p]; try lia.
  unfold binary_normalize, binary_round, shl_align.
  set (e' := SpecFloat.fexp JS.prec JS.emax (Zpos (digits2_pos p) + e)).
  assert (emin <= e') by apply fexp_ge_emin.
  destruct (e' - e); by apply binary_round_aux_pos.
Qed.

(** ** The difference of two ordered numbers is positive *)

Lemma pos_iter_xO m d : Zpos (Pos.iter xO m d) = Zpos m * 2 ^ Zpos d.
Proof.
  induction d as [| d IH] using Pos.peano_ind.
  - simpl. lia.
  - rewrite Pos.iter_succ, Pos2Z.inj_xO, IH, Pos2Z.inj_succ, Z.pow_succ_r by lia.
    lia.
Qed.

Lemma shl_align_value m e ez :
  ez <= e -> Zpos (shl_align m e ez).1 = Zpos m * 2 ^ (e - ez).
Proof.
  intros Hle. unfold shl_align.
  destruct (ez - e) as [| d | d] eqn:E; cbn [fst]; try lia.
  - replace (e - ez) with 0 by lia. lia.
  - rewrite pos_iter_xO. f_equal. f_equal. lia.
Qed.

Lemma bounded_emin m e : bounded JS.prec JS.emax m e = true -> emin <= e.
Proof.
  unfold bounded, canonical_mantissa. intros [H _]%andb_prop.
  apply Z.eqb_eq in H. rewrite <- H. apply fexp_ge_emin.
Qed.

(** Of two canonical mantissas, the one with the larger exponent is the
    larger number. *)
Lemma canonical_lt m1 e1 m2 e2 :
  bounded JS.prec JS.emax m1 e1 = true ->
  bounded JS.prec JS.emax m2 e2 = true ->
  e1 < e2 ->
  Zpos m1 < Zpos m2 * 2 ^ (e2 - e1).
Proof.
  unfold bounded, canonical_mantissa, SpecFloat.fexp, SpecFloat.emin,
    JS.prec, JS.emax.
  intros [H1 _]%andb_prop [H2 _]%andb_prop Hlt.
  apply Z.eqb_eq in H1, H2.
  pose proof (digits2_pos_bounds m1) as [_ Hhi].
  pose proof (digits2_pos_bounds m2) as [Hlo _].
  assert (Hd2 : Zpos (digits2_pos m2) = 53) by lia.
  assert (Hd1 : Zpos (digits2_pos m1) <= 53) by lia.
  rewrite Hd2 in Hlo.
  assert (2 ^ Zpos (digits2_pos m1) <= 2 ^ 53) by (apply Z.pow_le_mono_r; lia).
  assert (2 ^ 1 <= 2 ^ (e2 - e1)) by (apply Z.pow_le_mono_r; lia).
  change (2 ^ 53) with (2 ^ (53 - 1) * 2 ^ 1) in *. nia.
Qed.

Lemma sub_pos x y :
  JS.valid x = true -> JS.valid y = true ->
  JS.isFinite x = true -> JS.isFinite y = true ->
  JS.lt x y = true ->
  JS.lt (JS.of_Z 0) (JS.sub y x) = true.
Proof.
  intros Vx Vy Fx Fy Hlt.
  destruct x as [sx | sx | | sx mx ex], y as [sy | sy | | sy my ey];
    try discriminate; try by (destruct sx, sy; vm_compute in Hlt).
  unfold JS.sub, SFsub. cbv zeta.
    unfold JS.valid, valid_binary in Vx, Vy.
    pose proof (bounded_emin _ _ Vx). pose proof (bounded_emin _ _ Vy).
  apply binary_normalize_pos; [| lia].
  rewrite !shl_align_value by lia.
  apply lt_rank in Hlt; [| done | done]. unfold below in Hlt.
  assert (0 < 2 ^ (ex - Z.min ey ex)) by (apply Z.pow_pos_nonneg; lia).
  assert (0 < 2 ^ (ey - Z.min ey ex)) by (apply Z.pow_pos_nonneg; lia).
  destruct sx, sy; cbn [cond_Zopp rank fst snd] in *; try lia.
  - (* both negative *)
    destruct (Z.lt_trichotomy ex ey) as [Hlt' | [-> | Hgt]]; try lia.
    + rewrite Z.min_id, Z.sub_diag in *. lia.
    + pose proof (canonical_lt _ _ _ _ Vy Vx Hgt).
      rewrite Z.min_l, Z.sub_diag by lia. lia.
  - (* both positive *)
    destruct (Z.lt_trichotomy ex ey) as [Hlt' | [-> | Hgt]]; try lia.
    + pose proof (canonical_lt _ _ _ _ Vx Vy Hlt').
      rewrite Z.min_r, Z.sub_diag by lia. lia.
    + rewrite Z.min_id, Z.sub_diag in *. lia.
Qed.

(** Equal numbers have a difference that is not positive. *)
Lemma sub_eq_not_pos x y :
  JS.isFinite x = true -> JS.isFinite y = true ->
  JS.lt x y = false -> JS.lt y x = false ->
  JS.lt (JS.of_Z 0) (JS.sub y x) = false.
Proof.
  intros Fx Fy Hxy Hyx.
  destruct x as [sx | sx | | sx mx ex], y as [sy | sy | | sy my ey];
    try discriminate; try by (destruct sx, sy; vm_compute in Hxy, Hyx).
  assert (sx = sy /\ mx = my /\ ex = ey) as (-> & -> & ->).
  { unfold JS.lt, SFltb, SFcompare in Hxy, Hyx.
    rewrite !Pos.compare_cont_spec in *. simpl in *.
    destruct sx, sy; try done;
      destruct (Z.compare_spec ex ey), (Z.compare_spec ey ex); try done; try lia;
      destruct (Pos.compare_spec mx my), (Pos.compare_spec my mx);
      try done; try lia; subst; done. }
  unfold JS.sub, SFsub. cbv zeta. by rewrite Z.sub_diag.
Qed.

(** ** The numbers of a 16-bit array *)

Lemma holdsFrom_spec check n : forall x k,
  holdsFrom check n x = true -> x <= k < x + Z.of_nat n -> check k = true.
Proof.
  induction n as [| n IH]; intros x k H Hk; [lia |].
  cbn [holdsFrom] in H. apply andb_prop in H as [Hx Hrest].
  destruct (decide (k = x)) as [-> | Hne]; [done |].
  apply (IH (x + 1)); [done | lia].
Qed.

(** Checked on each of the 65536 values: the number read from a 16-bit
    element is a valid finite float, and it is below its successor. *)
Lemma u16_table :
  holdsFrom
    (fun n =>
       JS.valid (JS.of_Z n) && JS.isFinite (JS.of_Z n)
       && JS.lt (JS.of_Z n) (JS.of_Z (n + 1)))
    (Z.to_nat 65536) 0 = true.
Proof. vm_compute. reflexivity. Qed.

Lemma u16_facts x :
  0 <= x < 65536 ->
  JS.valid (JS.of_Z x) = true /\ JS.isFinite (JS.of_Z x) = true
  /\ JS.lt (JS.of_Z x) (JS.of_Z (x + 1)) = true.
Proof.
  intros Hx.
  pose proof (holdsFrom_spec _ _ 0 x u16_table) as H.
  rewrite Z2Nat.id in H by lia. cbv beta in H.
  assert (0 <= x < 0 + 65536) as Hc%H by lia.
  apply andb_prop in Hc as [Hc Hlt]. by apply andb_prop in Hc as [Hv Hf].
Qed.

(** On 16-bit values the comparison of numbers is that of integers. *)
Lemma u16_lt a b :
  0 <= a < 65536 -> 0 <= b < 65536 ->
  JS.lt (JS.of_Z a) (JS.of_Z b) = (a <? b).
Proof.
  assert (Hup : forall a n, 0 <= a -> a + Z.of_nat n < 65536 ->
                  JS.lt (JS.of_Z a) (JS.of_Z (a + Z.of_nat n + 1)) = true).
  { intros a0 n Ha0. induction n as [| n IH]; intros Hn.
    - rewrite Z.add_0_r. apply u16_facts. lia.
    - apply lt_trans with (JS.of_Z (a0 + Z.of_nat n + 1)); [apply IH; lia |].
      replace (a0 + Z.of_nat (S n)) with (a0 + Z.of_nat n + 1) by lia.
      apply u16_facts. lia. }
  intros Ha Hb. destruct (Z.ltb_spec a b) as [Hlt | Hge].
  - replace b with (a + Z.of_nat (Z.to_nat (b - a - 1)) + 1) by lia.
    apply Hup; lia.
  - destruct (decide (a = b)) as [-> | Hne]; [apply lt_irrefl |].
    apply lt_asym.
    replace a with (b + Z.of_nat (Z.to_nat (a - b - 1)) + 1) at 1 by lia.
    apply Hup; lia.
Qed.

Lemma u16_samples d :
  Forall (fun x => 0 <= x < 65536) d ->
  Forall (fun v => JS.valid v = true /\ JS.isFinite v = true) (map JS.of_Z d).
Proof.
  intros H. apply Forall_map. eapply Forall_impl; [exact H |].
  intros x Hx. cbv beta. by destruct (u16_facts x Hx) as (? & ? & _).
Qed.

(** ** DynamicRange: what the scans compute *)

Lemma finite_between_infinities x :
  JS.isFinite x = true ->
  JS.lt x JS.POSITIVE_INFINITY = true /\ JS.lt JS.NEGATIVE_INFINITY x = true.
Proof. by destruct x as [[] | | | [] m e]. Qed.

Lemma scanned_step seen acc x :
  scanned seen acc -> scanned (seen ++ [x]) (step32 acc x).
Proof.
  intros Hacc. destruct acc as [mn mx]. unfold step32.
  destruct (JS.isFinite x) eqn:Fx.
  - right. destruct Hacc as [[Hnone [= -> ->]] | (Fmn & Imn & Fmx & Imx & Hall)].
    + destruct (finite_between_infinities x Fx) as [-> ->]. cbn [fst snd].
      repeat split; try done; try (apply elem_of_app; right; by constructor).
      all: apply elem_of_app in H as [Hv | ->%list_elem_of_singleton];
        [ rewrite Forall_forall in Hnone; specialize (Hnone _ Hv); congruence
        | apply lt_irrefl ].
    + cbn [fst snd] in *.
      assert (Hin : forall a (c : bool),
                a ∈ seen -> (if c then x else a) ∈ seen ++ [x]).
      { intros a c Ha. destruct c; apply elem_of_app; [right | by left].
        by constructor. }
      split; [by destruct (JS.lt x mn) |].
      split; [by apply Hin |].
      split; [by destruct (JS.lt mx x) |].
      split; [by apply Hin |].
      intros v Hv Fv. apply elem_of_app in Hv as [Hv | ->%list_elem_of_singleton].
      * destruct (Hall v Hv Fv) as [Hlo Hhi]. split.
        -- destruct (JS.lt x mn) eqn:E; [| done].
           destruct (JS.lt v x) eqn:E'; [| done].
           by rewrite (lt_trans _ _ _ E' E) in Hlo.
        -- destruct (JS.lt mx x) eqn:E; [| done].
           destruct (JS.lt x v) eqn:E'; [| done].
           by rewrite (lt_trans _ _ _ E E') in Hhi.
      * split.
        -- destruct (JS.lt x mn) eqn:E; [apply lt_irrefl | done].
        -- destruct (JS.lt mx x) eqn:E; [apply lt_irrefl | done].
  - destruct Hacc as [[Hnone ->] | (Fmn & Imn & Fmx & Imx & Hall)].
    + left. split; [| done]. apply Forall_app. split; [done |]. by constructor.
    + right. cbn [fst snd] in *.
      repeat split; try done; try (apply elem_of_app; by left).
      all: apply elem_of_app in H as [Hv | ->%list_elem_of_singleton];
        [by apply Hall | congruence].
Qed.

Lemma scanned_fold l : forall seen acc,
  scanned seen acc -> scanned (seen ++ l) (fold_left step32 l acc).
Proof.
  induction l as [| x l IH]; intros seen acc Hacc; simpl.
  - by rewrite app_nil_r.
  - replace (seen ++ x :: l) with ((seen ++ [x]) ++ l) by by rewrite <- app_assoc.
    apply IH. by apply scanned_step.
Qed.

Lemma scanRange32_fold d :
  scanRange32 d
  = fold_left step32 d (JS.POSITIVE_INFINITY, JS.NEGATIVE_INFINITY).
Proof.
  unfold scanRange32.
  generalize (JS.POSITIVE_INFINITY, JS.NEGATIVE_INFINITY) as acc.
  induction d as [| x d IH]; intros acc; [done |].
  cbn [fold_left]. rewrite IH. by destruct acc.
Qed.

Lemma scanRange32_scanned d : scanned d (scanRange32 d).
Proof.
  rewrite scanRange32_fold. apply (scanned_fold d []). left. by split.
Qed.

(** As soon as the minimum is finite, the scan holds the DynamicRange. *)
Lemma scanRange32_range d lo hi :
  scanRange32 d = (lo, hi) -> JS.isFinite lo = true -> isDynamicRange lo hi d.
Proof.
  intros Hscan Flo. pose proof (scanRange32_scanned d) as H.
  rewrite Hscan in H. destruct H as [[_ [= -> ->]] | H]; [done | exact H].
Qed.


(** On finite samples the scan of the 16-bit branch is that of the float
    branch. *)
Lemma scanRange16_32 d0 rest :
  Forall (fun v => JS.isFinite v = true) (d0 :: rest) ->
  scanRange16 d0 rest = scanRange32 (d0 :: rest).
Proof.
  intros Hfin. apply Forall_cons in Hfin as [F0 Frest].
  rewrite scanRange32_fold. cbn [fold_left]. unfold step32 at 2.
  rewrite F0. destruct (finite_between_infinities d0 F0) as [-> ->].
  unfold scanRange16. generalize (d0, d0) as acc.
  induction Frest as [| x rest Fx _ IH]; intros acc; [done |].
  cbn [fold_left]. rewrite IH. f_equal.
  destruct acc as [mn mx]. unfold step32. by rewrite Fx.
Qed.

Lemma eqb_rank x y :
  JS.eqb x y = true -> x <> JS.NaN /\ y <> JS.NaN /\ rank x = rank y.
Proof.
  unfold JS.eqb, SFeqb, SFcompare.
  destruct x as [sx | sx | | sx mx ex], y as [sy | sy | | sy my ey];
    try done; try destruct sx; try destruct sy; try done.
  all: rewrite Pos.compare_cont_spec; simpl;
    destruct (Z.compare_spec ex ey) as [-> | Hlt | Hgt]; try done;
    destruct (Pos.compare_spec mx my) as [-> | Hm | Hm]; done.
Qed.

Lemma eqb_not_lt x y :
  JS.eqb x y = true -> JS.lt x y = false /\ JS.lt y x = false.
Proof.
  intros (Hx & Hy & Hr)%eqb_rank. split; apply not_true_is_false; intros H;
    apply lt_rank in H; try done; rewrite Hr in H; unfold below in H; lia.
Qed.

(** ** C1 and C7: the enhanced normalizer on 16-bit and float data *)

(** The samples of a well-formed 16-bit or float array are valid floats,
    and those of a 16-bit array are finite. *)
Lemma samples_valid data :
  TypedArray_wf data -> is16or32 data ->
  Forall (fun v => JS.valid v = true) (samples data).
Proof.
  destruct data as [d | d | d | t d]; simpl; intros Hwf H16; try done.
  eapply Forall_impl; [exact (u16_samples d Hwf) |]. by intros v [Hv _].
Qed.

Lemma samples16_finite d :
  TypedArray_wf (Uint16Array d) ->
  Forall (fun v => JS.isFinite v = true) (samples (Uint16Array d)).
Proof.
  simpl. intros Hwf.
  eapply Forall_impl; [exact (u16_samples d Hwf) |]. by intros v [_ Hv].
Qed.

(** For both array types the pair computed is [scanRange32] of the
    samples. *)
Lemma observedRange_scan data lo hi :
  TypedArray_wf data -> observedRange data = Some (lo, hi) ->
  scanRange32 (samples data) = (lo, hi).
Proof.
  destruct data as [d | d | d | t d]; cbn [observedRange]; intros Hwf Hobs; try done.
  - pose proof (samples16_finite d Hwf) as Hfin.
    destruct (samples (Uint16Array d)) as [| d0 rest]; [done |].
    injection Hobs as Hobs. by rewrite <- scanRange16_32.
  - by injection Hobs.
Qed.

Lemma observedRange_is16or32 data r : observedRange data = Some r -> is16or32 data.
Proof. by destruct data. Qed.

(** When the minimum is finite: the pair is the DynamicRange, and the test
    [dataRange > 0] of the code is the test [max > min]. *)
Lemma observedRange_spec data lo hi :
  TypedArray_wf data -> observedRange data = Some (lo, hi) ->
  JS.isFinite lo = true ->
  isDynamicRange lo hi (samples data)
  /\ JS.lt (JS.of_Z 0) (JS.sub hi lo) = JS.lt lo hi.
Proof.
  intros Hwf Hobs Flo.
  pose proof (scanRange32_range _ _ _ (observedRange_scan _ _ _ Hwf Hobs) Flo)
    as Hrange.
  split; [done |].
  destruct Hrange as (_ & Ilo & Fhi & Ihi & Hall).
  pose proof (samples_valid data Hwf (observedRange_is16or32 _ _ Hobs)) as Hvalid.
  rewrite Forall_forall in Hvalid.
  destruct (JS.lt lo hi) eqn:E.
  - apply sub_pos; auto.
  - apply sub_eq_not_pos; auto. by destruct (Hall lo Ilo Flo) as [_ ?].
Qed.


(** The enhanced normalizer on a 16-bit or float array, by the three cases
    of its observed range. *)
Lemma normalizeToUint8Enhanced_cases data bits lo hi :
  TypedArray_wf data -> observedRange data = Some (lo, hi) ->
  normalizeToUint8Enhanced data bits =
    if JS.isFinite lo then
      if JS.lt lo hi then
        map (fun v => if JS.isFinite v then stretch lo hi v else 0) (samples data)
      else repeat (fallback data bits lo) (TypedArray_length data)
    else repeat 0 (TypedArray_length data).
Proof.
  intros Hwf Hobs.
  pose proof (observedRange_scan _ _ _ Hwf Hobs) as Hscan.
  destruct (JS.isFinite lo) eqn:Flo.
  - destruct (observedRange_spec _ _ _ Hwf Hobs Flo)
      as [(_ & _ & Fhi & _ & _) Htest].
    destruct data as [d | d | d | t d]; [done | | | done].
    + pose proof (samples16_finite d Hwf) as Hfin.
      cbn [observedRange normalizeToUint8Enhanced TypedArray_length fallback] in *.
      destruct (samples (Uint16Array d)) as [| d0 rest]; [done |].
      injection Hobs as Hobs. rewrite Hobs, Htest.
      destruct (JS.lt lo hi); [| done].
      apply map_ext_in. intros v Hv.
      rewrite Forall_forall in Hfin. by rewrite (Hfin v (proj2 (list_elem_of_In _ _) Hv)).
    + cbn [observedRange normalizeToUint8Enhanced TypedArray_length fallback
             samples] in *.
      injection Hobs as Hobs. rewrite Hobs, Flo, Fhi, Htest. cbn [negb orb].
      by destruct (JS.lt lo hi).
  - destruct data as [d | d | d | t d]; [done | | | done].
    + pose proof (samples16_finite d Hwf) as Hfin.
      pose proof (scanRange32_scanned (samples (Uint16Array d))) as H.
      rewrite Hscan in H.
      destruct H as [[Hnone _] | (Flo' & _)]; [| cbn in Flo'; congruence].
      cbn [observedRange] in Hobs.
      destruct (samples (Uint16Array d)) as [| d0 rest]; [done |].
      apply Forall_cons in Hnone as [H0 _], Hfin as [H0' _]. congruence.
    + cbn [observedRange normalizeToUint8Enhanced TypedArray_length] in *.
      injection Hobs as Hobs. by rewrite Hobs, Flo.
Qed.

(** [JS.of_Z] on 16-bit values carries the integer order, so the
    DynamicRange of a 16-bit array is made of its least and greatest
    integer. *)
Lemma dynamicRange16_integers d lo hi :
  TypedArray_wf (Uint16Array d) ->
  isDynamicRange lo hi (samples (Uint16Array d)) ->
  exists a b, lo = JS.of_Z a /\ hi = JS.of_Z b /\ a ∈ d /\ b ∈ d
              /\ forall x, x ∈ d -> a <= x <= b.
Proof.
  simpl. intros Hwf (_ & Ilo & _ & Ihi & Hall).
  apply list_elem_of_fmap in Ilo as (a & -> & Ia), Ihi as (b & -> & Ib).
  exists a, b. repeat split; try done.
  all: rewrite Forall_forall in Hwf.
  all: assert (Hx : JS.of_Z x ∈ map JS.of_Z d) by (apply list_elem_of_fmap; eauto).
  all: destruct (Hall _ Hx (proj1 (proj2 (u16_facts x (Hwf x H))))) as [Hlo Hhi].
  - rewrite u16_lt in Hlo by auto. lia.
  - rewrite u16_lt in Hhi by auto. lia.
Qed.

(** The range the code computes, from the data: as soon as the array has a
    finite sample, the scan holds the DynamicRange of the samples. *)
Lemma observedRange_dynamic data v :
  TypedArray_wf data -> is16or32 data ->
  v ∈ samples data -> JS.isFinite v = true ->
  exists lo hi, observedRange data = Some (lo, hi)
                /\ isDynamicRange lo hi (samples data).
Proof.
  intros Hwf H16 Iv Fv.
  assert (Hobs : exists r, observedRange data = Some r).
  { destruct data as [d | d | d | t d]; try done; cbn [observedRange]; [| eauto].
    destruct (samples (Uint16Array d)); [by apply elem_of_nil in Iv | eauto]. }
  destruct Hobs as [[lo hi] Hobs]. exists lo, hi. split; [done |].
  pose proof (scanRange32_scanned (samples data)) as H.
  rewrite (observedRange_scan _ _ _ Hwf Hobs) in H.
  destruct H as [[Hnone _] | H]; [| exact H].
  rewrite Forall_forall in Hnone. specialize (Hnone _ Iv). congruence.
Qed.

Lemma not_lt_rank x y :
  x <> JS.NaN -> y <> JS.NaN -> JS.lt x y = false -> ~ below (rank x) (rank y).
Proof. intros Hx Hy Hlt Hb. apply lt_rank in Hb; congruence. Qed.

Lemma finite_not_NaN x : JS.isFinite x = true -> x <> JS.NaN.
Proof. by destruct x. Qed.

(** Two finite samples [a < b] put the minimum below the maximum. *)
Lemma dynamicRange_lt lo hi nums a b :
  isDynamicRange lo hi nums ->
  a ∈ nums -> b ∈ nums -> JS.isFinite a = true -> JS.isFinite b = true ->
  JS.lt a b = true -> JS.lt lo hi = true.
Proof.
  intros (Flo & _ & Fhi & _ & Hall) Ia Ib Fa Fb Hlt.
  destruct (Hall a Ia Fa) as [Hlo _], (Hall b Ib Fb) as [_ Hhi].
  pose proof (finite_not_NaN _ Flo). pose proof (finite_not_NaN _ Fhi).
  pose proof (finite_not_NaN _ Fa). pose proof (finite_not_NaN _ Fb).
  apply not_lt_rank in Hlo, Hhi; try done.
  apply lt_rank in Hlt; try done. apply lt_rank; try done.
  unfold below in *. lia.
Qed.









(** * Further properties of the code *)

(** ** Arithmetic on numbers that are not NaN *)

Lemma shr_fexp_nonneg m e l :
  0 <= m -> 0 <= shr_m (shr_fexp JS.prec JS.emax m e l).1.
Proof.
  intros Hm. unfold shr_fexp, shr.
  destruct (SpecFloat.fexp JS.prec JS.emax (Zdigits2 m + e) - e);
    cbn [fst]; try apply shr_iter_nonneg; by rewrite shr_record_of_loc_m.
Qed.

Lemma binary_round_aux_number sx m e l :
  0 <= m -> binary_round_aux JS.prec JS.emax sx m e l <> JS.NaN.
Proof.
  intros Hm. unfold binary_round_aux.
  pose proof (shr_fexp_nonneg m e l Hm) as H1.
  destruct (shr_fexp JS.prec JS.emax m e l) as [mrs1 e1]. cbn [fst] in H1.
  pose proof (round_nearest_even_ge (shr_m mrs1) (loc_of_shr_record mrs1)) as Hr.
  set (m2 := round_nearest_even (shr_m mrs1) (loc_of_shr_record mrs1)) in *.
  pose proof (shr_fexp_nonneg m2 e1 loc_Exact ltac:(lia)) as H2.
  destruct (shr_fexp JS.prec JS.emax m2 e1 loc_Exact) as [mrs2 e2].
  cbn [fst] in H2.
  destruct (shr_m mrs2); [done | by destruct (e2 <=? _) | lia].
Qed.

Lemma binary_normalize_number n e :
  binary_normalize JS.prec JS.emax n e false <> JS.NaN.
Proof.
  destruct n as [| p | p]; [done | |];
    unfold binary_normalize, binary_round;
    destruct (shl_align _ _ _) as [mz ez]; by apply binary_round_aux_number.
Qed.

Lemma of_Z_number n : JS.of_Z n <> JS.NaN.
Proof. apply binary_normalize_number. Qed.

Lemma sub_number x y :
  JS.isFinite x = true -> y <> JS.NaN -> JS.sub x y <> JS.NaN.
Proof.
  intros Fx Hy. unfold JS.sub, SFsub.
  destruct x as [sx | sx | | sx mx ex], y as [sy | sy | | sy my ey];
    try done; try (by destruct sx, sy).
  apply binary_normalize_number.
Qed.

(** A number divided by a finite number other than 0. *)
Lemma div_number x sy my ey :
  x <> JS.NaN -> JS.div x (S754_finite sy my ey) <> JS.NaN.
Proof.
  intros Hx. unfold JS.div, SFdiv.
  destruct x as [sx | sx | | sx mx ex]; try done.
  unfold SFdiv_core_binary.
  set (e' := Z.min _ _). set (m' := match _ with 0 => _ | _ => _ end).
  assert (0 <= m').
  { subst m'. destruct (ex - ey - e'); try lia.
    rewrite Z.shiftl_mul_pow2 by lia. lia. }
  pose proof (Z_div_mod m' (Zpos my) ltac:(lia)) as Hdiv.
  destruct (Z.div_eucl m' (Zpos my)) as [q r].
  apply binary_round_aux_number. nia.
Qed.

Lemma Math_floor_number x : x <> JS.NaN -> JS.Math_floor x <> JS.NaN.
Proof.
  unfold JS.Math_floor. destruct x as [| | | s m e]; try done. intros _.
  destruct (0 <=? e); [done |].
  destruct (_ =? 0); [done | apply of_Z_number].
Qed.

Lemma Math_ceil_number x : x <> JS.NaN -> JS.Math_ceil x <> JS.NaN.
Proof.
  unfold JS.Math_ceil. destruct x as [| | | s m e]; try done. intros _.
  destruct (0 <=? e); [done |].
  destruct (_ =? 0); [done | apply of_Z_number].
Qed.

Lemma le_refl x : x <> JS.NaN -> JS.le x x = true.
Proof.
  unfold JS.le, SFleb, SFcompare.
  destruct x as [s | s | | s m e]; try done; destruct s; try done;
    rewrite Pos.compare_cont_spec, Z.compare_refl; simpl;
    by rewrite Pos.compare_refl.
Qed.

Lemma lt_le x y : JS.lt x y = true -> JS.le x y = true.
Proof.
  unfold JS.lt, JS.le, SFltb, SFleb. by destruct (SFcompare x y) as [[] |].
Qed.

(** [Math.max] against a positive constant: a number that is not below the
    constant. *)
Lemma Math_max_floor c y :
  JS.lt (JS.of_Z 0) c = true -> JS.isFinite c = true -> y <> JS.NaN ->
  JS.le c (JS.Math_max c y) = true /\ JS.lt (JS.of_Z 0) (JS.Math_max c y) = true.
Proof.
  intros Hc Fc Hy.
  assert (Hmax : JS.Math_max c y = if JS.lt c y then y else c).
  { unfold JS.Math_max, JS.lt.
    destruct c as [sc | sc | | sc mc ec], y as [sy | sy | | sy my ey];
      try done; try by destruct sc. }
  rewrite Hmax. destruct (JS.lt c y) eqn:E.
  - split; [by apply lt_le | by eapply lt_trans].
  - split; [| done]. apply le_refl. by destruct c.
Qed.

(** ** Results that stay finite *)

Lemma round_nearest_even_le m l : round_nearest_even m l <= m + 1.
Proof. destruct l as [| []]; simpl; try lia. destruct (Z.even m); lia. Qed.

Lemma digits2_pos_le p k : 0 <= k -> Zpos p < 2 ^ k -> Zpos (digits2_pos p) <= k.
Proof.
  intros Hk Hp. pose proof (digits2_pos_bounds p) as [Hlo _].
  destruct (Z_le_gt_dec (Zpos (digits2_pos p)) k) as [| Hgt]; [done |].
  assert (2 ^ k <= 2 ^ (Zpos (digits2_pos p) - 1)) by (apply Z.pow_le_mono_r; lia).
  lia.
Qed.

(** The exponent and the mantissa [shr_fexp] arrives at. *)
Lemma shr_fexp_spec m e l :
  emin <= e ->
  let k := Z.max 0 (fexp (Zpos (digits2_pos m) + e) - e) in
  (shr_fexp JS.prec JS.emax (Zpos m) e l).2 = e + k
  /\ shr_m (shr_fexp JS.prec JS.emax (Zpos m) e l).1 = Zpos m / 2 ^ k.
Proof.
  intros He k. subst k. unfold shr_fexp, shr, fexp. cbn [Zdigits2].
  destruct (SpecFloat.fexp JS.prec JS.emax (Zpos (digits2_pos m) + e) - e)
    as [| p | p]; cbn [fst snd]; rewrite ?shr_record_of_loc_m.
  - simpl. rewrite Z.div_1_r. lia.
  - rewrite shr_m_iter by (rewrite shr_record_of_loc_m; lia).
    rewrite shr_record_of_loc_m, Z.shiftr_div_pow2 by lia.
    by rewrite Z.max_r by lia.
  - rewrite Z.max_l by lia. simpl. rewrite Z.div_1_r. lia.
Qed.

Lemma binary_round_aux_finite sx m e l :
  emin <= e <= 970 -> Zpos (digits2_pos m) + e <= 1023 ->
  exists m' e', binary_round_aux JS.prec JS.emax sx (Zpos m) e l
                = S754_finite sx m' e'.
Proof.
  intros He Hd. unfold binary_round_aux.
  pose proof (shr_fexp_spec m e l ltac:(lia)) as [He1 Hm1].
  pose proof (shr_fexp_pos m e l ltac:(lia)) as [Hp1 _].
  pose proof (digits2_pos_bounds m) as [_ Hhi].
  destruct (shr_fexp JS.prec JS.emax (Zpos m) e l) as [mrs1 e1].
  cbn [fst snd] in *. cbv zeta in *.
  set (d := Zpos (digits2_pos m)) in *.
  set (k := Z.max 0 (fexp (d + e) - e)) in *.
  assert (Hk : 0 <= k /\ d - 53 <= k /\ e1 <= 970).
  { subst k. unfold fexp, SpecFloat.fexp, emin, SpecFloat.emin, JS.prec, JS.emax in *.
    lia. }
  assert (Hm1' : shr_m mrs1 < 2 ^ 53).
  { rewrite Hm1. apply Z.div_lt_upper_bound; [apply Z.pow_pos_nonneg; lia |].
    rewrite <- Z.pow_add_r by lia.
    eapply Z.lt_le_trans; [exact Hhi |]. apply Z.pow_le_mono_r; lia. }
  pose proof (round_nearest_even_ge (shr_m mrs1) (loc_of_shr_record mrs1)) as Hge.
  pose proof (round_nearest_even_le (shr_m mrs1) (loc_of_shr_record mrs1)) as Hle.
  destruct (round_nearest_even (shr_m mrs1) (loc_of_shr_record mrs1))
    as [| m2 | m2]; try lia.
  assert (He1' : emin <= e1).
  { unfold emin, SpecFloat.emin, JS.prec, JS.emax in *. lia. }
  pose proof (shr_fexp_spec m2 e1 loc_Exact He1') as [He2 _].
  pose proof (shr_fexp_pos m2 e1 loc_Exact He1') as [Hp2 _].
  assert (Hd2 : Zpos (digits2_pos m2) <= 54).
  { apply digits2_pos_le; [lia |]. change (2 ^ 54) with (2 * 2 ^ 53). lia. }
  destruct (shr_fexp JS.prec JS.emax (Zpos m2) e1 loc_Exact) as [mrs2 e2].
  cbn [fst snd] in *. cbv zeta in *.
  destruct (shr_m mrs2) as [| m3 | m3]; try lia.
  assert (e2 <= 971).
  { unfold fexp, SpecFloat.fexp, emin, SpecFloat.emin, JS.prec, JS.emax in *. lia. }
  destruct (Z.leb_spec e2 (JS.emax - JS.prec)) as [| Hgt]; [eauto |].
  unfold JS.emax, JS.prec in Hgt. lia.
Qed.

Lemma digits2_pos_iter_xO p k :
  Zpos (digits2_pos (Pos.iter xO p k)) = Zpos (digits2_pos p) + Zpos k.
Proof.
  induction k as [| k IH] using Pos.peano_ind.
  - simpl. lia.
  - rewrite Pos.iter_succ. cbn [digits2_pos]. lia.
Qed.

Lemma binary_round_finite sx p e :
  emin <= e <= 970 -> Zpos (digits2_pos p) + e <= 1023 ->
  exists m' e', binary_round JS.prec JS.emax sx p e = S754_finite sx m' e'.
Proof.
  intros He Hd. unfold binary_round, shl_align.
  pose proof (fexp_ge_emin (Zpos (digits2_pos p) + e)) as Hf. unfold fexp in Hf.
  destruct (SpecFloat.fexp JS.prec JS.emax (Zpos (digits2_pos p) + e) - e)
    as [| k | k] eqn:E; try (apply binary_round_aux_finite; lia).
  apply binary_round_aux_finite; [lia |].
  rewrite digits2_pos_iter_xO. lia.
Qed.

(** An integer below 2^53 is read as a finite number, positive if the
    integer is. *)
Lemma of_Z_finite n :
  0 < n < 2 ^ 53 -> exists m e, JS.of_Z n = S754_finite false m e.
Proof.
  intros Hn. destruct n as [| p | p]; try lia.
  unfold JS.of_Z, binary_normalize. apply binary_round_finite.
  - unfold emin, SpecFloat.emin, JS.prec, JS.emax. lia.
  - pose proof (digits2_pos_le p 53 ltac:(lia) ltac:(lia)). lia.
Qed.

(** A finite number other than 0 divided by itself is 1. *)
Lemma div_self s m e : JS.div (S754_finite s m e) (S754_finite s m e) = JS.of_Z 1.
Proof.
  unfold JS.div, SFdiv, SFdiv_core_binary. cbn [Zdigits2].
  rewrite !Z.sub_diag.
  change (Z.min (SpecFloat.fexp JS.prec JS.emax 0) 0) with (-53).
  change (0 - -53) with 53.
  rewrite Z.shiftl_mul_pow2 by lia.
  assert (Z.div_eucl (Zpos m * 2 ^ 53) (Zpos m) = (2 ^ 53, 0)) as ->.
  { pose proof (Z.div_mul (2 ^ 53) (Zpos m) ltac:(lia)) as Hq.
    pose proof (Z.mod_mul (2 ^ 53) (Zpos m) ltac:(lia)) as Hr.
    rewrite (Z.mul_comm (2 ^ 53)) in Hq, Hr. unfold Z.div, Z.modulo in Hq, Hr.
    destruct (Z.div_eucl (Zpos m * 2 ^ 53) (Zpos m)). congruence. }
  rewrite xorb_nilpotent.
  unfold new_location. by destruct (Z.even (Zpos m)).
Qed.

(** ** FormatValidator: only the header is looked at *)

(** X1. The verdict and the message of [validateTiff] depend on the first
    four bytes alone, provided the buffer has at least 8 bytes: whatever
    follows the magic number is not inspected. *)
Theorem validateTiff_header_only (buffer buffer' : list byte) :
  (8 <= length buffer)%nat -> (8 <= length buffer')%nat ->
  take 4 buffer = take 4 buffer' ->
  validateTiff buffer = validateTiff buffer'.
Proof.
  intros Hlen Hlen' Htake.
  destruct buffer as [| b0 [| b1 [| b2 [| b3 rest]]]]; simpl in Hlen; try lia.
  destruct buffer' as [| c0 [| c1 [| c2 [| c3 rest']]]]; simpl in Hlen'; try lia.
  injection Htake as -> -> -> ->.
  by rewrite !validateTiff_header by (simpl; lia).
Qed.

Lemma validateTiff_header_only_witness :
  validateTiff ["M"; "M"; x00; "*"; x00; x00; x00; x08]%byte
  = validateTiff ["M"; "M"; x00; "*"; xff; xff; xff; xff; xff]%byte.
Proof.
  apply validateTiff_header_only; [simpl; lia | simpl; lia | reflexivity].
Defined.

(** ** Normalizer: the results are byte arrays of the input's length *)

Lemma ToUint8_isByte x : isByte (JS.ToUint8 x).
Proof.
  unfold isByte, JS.ToUint8. destruct x as [| | | s m e]; try lia.
  pose proof (Z.mod_pos_bound (cond_Zopp s (Z.shiftl (Zpos m) e)) 256). lia.
Qed.

Lemma Forall_isByte_repeat b n : isByte b -> Forall isByte (repeat b n).
Proof. intros Hb. induction n; by constructor. Qed.

Lemma binarize_isByte x : isByte (binarize x).
Proof. unfold isByte, binarize. destruct (0 <? x); lia. Qed.

Lemma normalizeToUint8Enhanced_isByte data bits :
  TypedArray_wf data -> Forall isByte (normalizeToUint8Enhanced data bits).
Proof.
  intros Hwf. destruct data as [d | d | d | t d]; cbn [normalizeToUint8Enhanced].
  - destruct (bits =? 1).
    + apply Forall_map, Forall_forall. intros x _. apply binarize_isByte.
    + eapply Forall_impl; [exact Hwf |]. unfold isByte. intros x Hx. cbv beta in Hx. lia.
  - destruct (samples (Uint16Array d)) as [| d0 rest]; [constructor |].
    destruct (scanRange16 d0 rest) as [lo hi].
    destruct (JS.lt _ _).
    + apply Forall_map, Forall_forall. intros x _. apply ToUint8_isByte.
    + apply Forall_isByte_repeat, ToUint8_isByte.
  - destruct (scanRange32 d) as [lo hi].
    destruct (negb _ || negb _); [apply Forall_isByte_repeat; unfold isByte; lia |].
    destruct (JS.lt _ _).
    + apply Forall_map, Forall_forall. intros x _.
      destruct (JS.isFinite x); [apply ToUint8_isByte | unfold isByte; lia].
    + apply Forall_isByte_repeat, ToUint8_isByte.
  - apply Forall_isByte_repeat. unfold isByte. lia.
Qed.

Lemma normalizeToUint8_isByte data bits :
  TypedArray_wf data -> Forall isByte (normalizeToUint8 data bits).
Proof.
  intros Hwf. destruct data as [d | d | d | t d]; cbn [normalizeToUint8].
  - eapply Forall_impl; [exact Hwf |]. unfold isByte. intros x Hx. cbv beta in Hx. lia.
  - apply Forall_map, Forall_forall. intros x _. apply ToUint8_isByte.
  - apply Forall_map, Forall_forall. intros x _. apply ToUint8_isByte.
  - apply Forall_isByte_repeat. unfold isByte. lia.
Qed.

(** X2. On a well-formed sample array of any type (the three the code
    tests for and the others the TIFF library returns), and at any
    [bitsPerSample], the enhanced normalizer, the plain normalizer and the
    one the multi-band branch selects all return as many elements as the
    input has, each of them a byte value. *)
Theorem normalizers_return_bytes (data : TypedArray) (bitsPerSample : Z) :
  TypedArray_wf data ->
  (length (normalizeToUint8Enhanced data bitsPerSample) = TypedArray_length data
   /\ Forall (fun b => 0 <= b <= 255) (normalizeToUint8Enhanced data bitsPerSample))
  /\ (length (normalizeToUint8 data bitsPerSample) = TypedArray_length data
      /\ Forall (fun b => 0 <= b <= 255) (normalizeToUint8 data bitsPerSample))
  /\ (length (normalizeMultiBand data bitsPerSample) = TypedArray_length data
      /\ Forall (fun b => 0 <= b <= 255) (normalizeMultiBand data bitsPerSample)).
Proof.
  intros Hwf.
  pose proof (normalizeToUint8Enhanced_isByte data bitsPerSample Hwf) as He.
  pose proof (normalizeToUint8_isByte data bitsPerSample Hwf) as Hp.
  repeat split;
    auto using normalizeToUint8Enhanced_length, normalizeToUint8_length,
      normalizeMultiBand_length.
  unfold normalizeMultiBand. by destruct (16 <=? bitsPerSample).
Qed.

Lemma normalizers_return_bytes_witness :
  length (normalizeToUint8Enhanced
            (Float32Array [JS.NaN; JS.of_Z 3; JS.of_Z (-7)]) 32) = 3%nat.
Proof.
  refine (proj1 (proj1 (normalizers_return_bytes
                          (Float32Array [JS.NaN; JS.of_Z 3; JS.of_Z (-7)]) 32 _))).
  repeat constructor.
Defined.

(** ** ProgressEstimator *)

(** X3. Without a declared total size, the estimate reported with a chunk
    is a number (never NaN) that is at least 3 seconds, whatever the clock
    readings are, also if the clock went backwards. *)
Theorem unknown_size_estimate_floor (start time : Z) :
  exists t, eta (reportUnknownSize start time) = Some t
            /\ t <> JS.NaN /\ JS.le (JS.of_Z 3) t = true.
Proof.
  eexists. split; [reflexivity |].
  assert (Hy : JS.sub (JS.of_Z 15)
                 (JS.Math_floor (JS.div (JS.of_Z (time - start)) (JS.of_Z 1000)))
               <> JS.NaN).
  { apply sub_number; [done |]. apply Math_floor_number.
    destruct (of_Z_finite 1000 ltac:(lia)) as (m & e & ->).
    apply div_number, of_Z_number. }
  destruct (Math_max_floor (JS.of_Z 3) _ eq_refl eq_refl Hy) as [Hle Hlt].
  split; [| exact Hle]. intros Heq. by rewrite Heq in Hlt.
Qed.

(** The estimate the progress callback falls back on is greater than 0 at
    every percent, NaN included. *)
Lemma fallback_estimate_positive p :
  JS.lt (JS.of_Z 0)
    (if JS.le (JS.of_Z 60) p && JS.lt p (JS.of_Z 100)
     then JS.Math_max (JS.of_Z 1)
            (JS.Math_ceil (JS.div (JS.sub (JS.of_Z 100) p) (JS.of_Z 15)))
     else if JS.lt p (JS.of_Z 60)
     then JS.Math_max (JS.of_Z 2)
            (JS.Math_ceil (JS.div (JS.sub (JS.of_Z 60) p) (JS.of_Z 10)))
     else JS.of_Z 1) = true.
Proof.
  destruct (JS.le (JS.of_Z 60) p && JS.lt p (JS.of_Z 100)) eqn:E1.
  - apply andb_prop in E1 as [_ Hlt]. apply lt_not_NaN in Hlt as [Hp _].
    apply Math_max_floor; [done | done |].
    apply Math_ceil_number.
    destruct (of_Z_finite 15 ltac:(lia)) as (m & e & ->).
    apply div_number, sub_number; done.
  - destruct (JS.lt p (JS.of_Z 60)) eqn:E2; [| done].
    apply lt_not_NaN in E2 as [Hp _].
    apply Math_max_floor; [done | done |].
    apply Math_ceil_number.
    destruct (of_Z_finite 10 ltac:(lia)) as (m & e & ->).
    apply div_number, sub_number; done.
Qed.

(** X4. After every call of the progress callback the display holds the
    reported percent and stage and an estimate that is a number greater than
    0, whatever the event carries as estimate (none, 0, a negative number or
    NaN) and whatever its percent is. *)
Theorem progressSink_estimate_positive (s : ViewState) (e : ProgressEvent) :
  let s' := applyUpdates s (progressSink e) in
  loadingProgress s' = percent e
  /\ loadingStage s' = stage e
  /\ exists v, estimatedTime s' = Some v /\ JS.lt (JS.of_Z 0) v = true.
Proof.
  cbv zeta. split; [done |]. split; [done |].
  eexists. split; [reflexivity |].
  destruct e as [p st [t |]]; cbn [eta percent].
  - destruct (JS.lt (JS.of_Z 0) t) eqn:Et; [done |].
    apply fallback_estimate_positive.
  - apply fallback_estimate_positive.
Qed.

(** ** ProgressEstimator: the first estimate *)

Lemma binary_round_aux_signed sx m e l :
  0 <= m -> signed sx (binary_round_aux JS.prec JS.emax sx m e l).
Proof.
  intros Hm. unfold binary_round_aux.
  pose proof (shr_fexp_nonneg m e l Hm) as H1.
  destruct (shr_fexp JS.prec JS.emax m e l) as [mrs1 e1]. cbn [fst] in H1.
  pose proof (round_nearest_even_ge (shr_m mrs1) (loc_of_shr_record mrs1)) as Hr.
  set (m2 := round_nearest_even (shr_m mrs1) (loc_of_shr_record mrs1)) in *.
  pose proof (shr_fexp_nonneg m2 e1 loc_Exact ltac:(lia)) as H2.
  destruct (shr_fexp JS.prec JS.emax m2 e1 loc_Exact) as [mrs2 e2].
  cbn [fst] in H2.
  destruct (shr_m mrs2); [done | by destruct (e2 <=? _) | lia].
Qed.

Lemma of_Z_signed n : n <> 0 -> signed (n <? 0) (JS.of_Z n).
Proof.
  intros Hn. destruct n as [| p | p]; [done | |];
    unfold JS.of_Z, binary_normalize, binary_round;
    destruct (shl_align _ _ _) as [mz ez]; by apply binary_round_aux_signed.
Qed.

Lemma div_signed s x my ey :
  signed s x -> signed s (JS.div x (S754_finite false my ey)).
Proof.
  intros Hx. unfold JS.div, SFdiv.
  destruct x as [sx | sx | | sx mx ex]; try done;
    cbn [signed] in Hx |- *; subst s; try by destruct sx.
  unfold SFdiv_core_binary.
  set (e' := Z.min _ _). set (m' := match _ with 0 => _ | _ => _ end).
  assert (0 <= m').
  { subst m'. destruct (ex - ey - e'); try lia.
    rewrite Z.shiftl_mul_pow2 by lia. lia. }
  pose proof (Z_div_mod m' (Zpos my) ltac:(lia)) as Hdiv.
  destruct (Z.div_eucl m' (Zpos my)) as [q r].
  rewrite xorb_false_r. apply binary_round_aux_signed. nia.
Qed.

Lemma Math_ceil_signed s x : signed s x -> signed s (JS.Math_ceil x).
Proof.
  unfold JS.Math_ceil. destruct x as [| | | sx m e]; try done.
  cbn [signed]. intros <-.
  destruct (Z.leb_spec 0 e) as [| He]; [done |].
  rewrite Z.shiftl_div_pow2 by lia.
  assert (Hpow : 0 < 2 ^ (- e)) by (apply Z.pow_pos_nonneg; lia).
  destruct sx; cbn [negb cond_Zopp].
  - pose proof (Z.div_pos (Zpos m) (2 ^ (- e)) ltac:(lia) Hpow) as Hq.
    destruct (Z.eqb_spec (- (Zpos m / 2 ^ (- e))) 0) as [| Hne]; [done |].
    replace true with (- (Zpos m / 2 ^ (- e)) <? 0) at 1
      by (apply Z.ltb_lt; lia).
    by apply of_Z_signed.
  - change (- Zpos m) with (Zneg m).
    assert (Hq : Zneg m / 2 ^ (- e) < 0) by (apply Z.div_lt_upper_bound; lia).
    destruct (Z.eqb_spec (- (Zneg m / 2 ^ (- e))) 0) as [| Hne]; [lia |].
    replace false with (- (Zneg m / 2 ^ (- e)) <? 0) at 1
      by (apply Z.ltb_ge; lia).
    by apply of_Z_signed.
Qed.

Lemma add_signed s x y : signed s x -> signed s y -> JS.add x y <> JS.NaN.
Proof.
  intros Hx Hy. unfold JS.add, SFadd.
  destruct x as [sx | sx | | sx mx ex], y as [sy | sy | | sy my ey];
    try done; cbn [signed] in Hx, Hy; subst; try (by destruct s).
  apply binary_normalize_number.
Qed.

(** X22. The estimate reported before the download starts is always a
    number (never NaN) of at least 3 seconds, for every declared total
    size, negative ones included; it is 15 seconds when no size is declared
    (no content-length header, or one that is 0). *)
Theorem initial_estimate_floor (totalSize : option Z) :
  initialEstimate totalSize <> JS.NaN
  /\ JS.le (JS.of_Z 3) (initialEstimate totalSize) = true
  /\ (truthy totalSize = false -> initialEstimate totalSize = JS.of_Z 15).
Proof.
  assert (Hfloor : forall y, y <> JS.NaN ->
            JS.Math_max (JS.of_Z 3) y <> JS.NaN
            /\ JS.le (JS.of_Z 3) (JS.Math_max (JS.of_Z 3) y) = true).
  { intros y Hy.
    destruct (Math_max_floor (JS.of_Z 3) y eq_refl eq_refl Hy) as [Hle Hlt].
    split; [| exact Hle]. intros Heq. by rewrite Heq in Hlt. }
  unfold initialEstimate, truthy.
  destruct totalSize as [n |]; [| done].
  destruct (Z.eqb_spec n 0) as [-> | Hn]; cbn [negb]; [done |].
  destruct (of_Z_finite MiB ltac:(unfold MiB; lia)) as (m1 & e1 & H1).
  destruct (of_Z_finite (5 * MiB) ltac:(unfold MiB; lia)) as (m5 & e5 & H5).
  rewrite H1, H5.
  pose proof (of_Z_signed n Hn) as Hs.
  destruct (Hfloor
              (JS.add (JS.Math_ceil (JS.div (JS.of_Z n) (S754_finite false m1 e1)))
                 (JS.Math_ceil (JS.div (JS.of_Z n) (S754_finite false m5 e5)))))
    as [Hnum Hle].
  { apply (add_signed (n <? 0)); by apply Math_ceil_signed, div_signed. }
  done.
Qed.

(** ** The load pipeline, case by case *)

Lemma fst_bind {A B} (m : Load A) (k : A -> Load B) :
  fst (bind m k)
  = fst m ++ match snd m with inr a => fst (k a) | inl _ => [] end.
Proof.
  destruct m as [t [e | a]]; simpl; [by rewrite app_nil_r |].
  by destruct (k a).
Qed.

Lemma snd_bind {A B} (m : Load A) (k : A -> Load B) :
  snd (bind m k) = match snd m with inr a => snd (k a) | inl e => inl e end.
Proof. destruct m as [t [e | a]]; simpl; [done |]. by destruct (k a). Qed.

Lemma fst_rethrow {A} describe (m : Load A) :
  fst (rethrow describe m) = fst m.
Proof. by destruct m as [t [e | a]]. Qed.

Lemma snd_rethrow {A} describe (m : Load A) :
  snd (rethrow describe m)
  = match snd m with
    | inl e => inl (ErrorObject (describe e))
    | inr a => inr a
    end.
Proof. by destruct m as [t [e | a]]. Qed.


Ltac load_step :=
  rewrite ?fst_bind, ?snd_bind, ?fst_rethrow, ?snd_rethrow;
  cbn [onProgress await fst snd ret throw negb].

Ltac load_cases env path :=
  unfold loadAndProcessTiff, processImage, readAll;
  repeat load_step;
  destruct (fetch env path) as [? | ?r] eqn:?; repeat load_step;
  [| destruct (ok r) eqn:?; repeat load_step;
     [ destruct (body r) as [?s |] eqn:?; repeat load_step;
       [ destruct (failure s) as [? |] eqn:?; repeat load_step;
         [| destruct (isValid (validateTiff (concat (map value (chunks s))))) eqn:?;
            repeat load_step;
            [ destruct (fromArrayBuffer env (concat (map value (chunks s))))
                as [? | ?tiff] eqn:?; repeat load_step;
              [| destruct (getImage tiff 0) as [? | ?image] eqn:?; repeat load_step;
                 [| destruct (getSamplesPerPixel image =? 1) eqn:?; repeat load_step;
                    [ destruct (readRasters image [0]) as [? | ?dat] eqn:?;
                      repeat load_step;
                      [| destruct (ImageData_new _ _ _) as [? | ?bitmap] eqn:?;
                         repeat load_step ]
                    | destruct (3 <=? getSamplesPerPixel image) eqn:?;
                      repeat load_step;
                      [ destruct (readRasters image [0; 1; 2]) as [? | ?dat] eqn:?;
                        repeat load_step;
                        [| destruct (ImageData_new _ _ _) as [? | ?bitmap] eqn:?;
                           repeat load_step ]
                      |] ] ] ]
            |] ]
       |]
     |] ].


(** X5. What a failing transport gives. A rejected [fetch] ends the load
    after the first event and a stream that fails after the reports of the
    chunks it delivered: when the reason is an [Error], the message is its
    message after the prefix, and for any other reason it is "Failed to
    load TIFF image: Unknown error". A response that is not [ok] ends the
    load after the first event and a response without a body after the
    second, with the messages the code builds. Whatever fails, the load is
    rejected with an [Error] whose message starts with "Failed to load TIFF
    image: ". *)
Theorem transport_failures (env : Env) (path : string) :
  let first :=
    {| percent := JS.of_Z 5; stage := "Downloading TIFF file..."; eta := None |} in
  let second r :=
    {| percent := JS.of_Z 5; stage := "Downloading TIFF file...";
       eta := Some (initialEstimate (contentLength r)) |} in
  let third :=
    {| percent := JS.of_Z 10; stage := "Downloading data..."; eta := None |} in
  (forall msg, fetch env path = inl (ErrorObject msg) ->
     loadAndProcessTiff env path
     = ([first], inl (ErrorObject ("Failed to load TIFF image: " +:+ msg))))
  /\ (forall rendering, fetch env path = inl (OtherValue rendering) ->
        loadAndProcessTiff env path
        = ([first], inl (ErrorObject "Failed to load TIFF image: Unknown error")))
  /\ (forall r, fetch env path = inr r -> ok r = false ->
        loadAndProcessTiff env path
        = ([first],
           inl (ErrorObject
                  ("Failed to load TIFF image: Failed to fetch TIFF: "
                   +:+ decimal (status r) +:+ " " +:+ statusText r))))
  /\ (forall r, fetch env path = inr r -> ok r = true -> body r = None ->
        loadAndProcessTiff env path
        = ([first; second r],
           inl (ErrorObject
                  "Failed to load TIFF image: Could not get stream reader")))
  /\ (forall r s msg,
        fetch env path = inr r -> ok r = true -> body r = Some s ->
        failure s = Some (ErrorObject msg) ->
        loadAndProcessTiff env path
        = ([first; second r; third]
           ++ downloadReports (startTime env) (contentLength r) 0 (chunks s),
           inl (ErrorObject ("Failed to load TIFF image: " +:+ msg))))
  /\ (forall r s rendering,
        fetch env path = inr r -> ok r = true -> body r = Some s ->
        failure s = Some (OtherValue rendering) ->
        loadAndProcessTiff env path
        = ([first; second r; third]
           ++ downloadReports (startTime env) (contentLength r) 0 (chunks s),
           inl (ErrorObject "Failed to load TIFF image: Unknown error")))
  /\ (forall e, snd (loadAndProcessTiff env path) = inl e ->
        exists cause,
          e = ErrorObject ("Failed to load TIFF image: " +:+ cause)).
Proof.
  cbv zeta. repeat split.
  - intros msg H. unfold loadAndProcessTiff. by rewrite H.
  - intros rendering H. unfold loadAndProcessTiff. by rewrite H.
  - intros r H Hok. unfold loadAndProcessTiff. by rewrite H; cbn; rewrite Hok.
  - intros r H Hok Hbody. unfold loadAndProcessTiff.
    by rewrite H; cbn; rewrite Hok; cbn; rewrite Hbody.
  - intros r s msg H Hok Hbody Hfail. unfold loadAndProcessTiff, readAll.
    by rewrite H; cbn; rewrite Hok; cbn; rewrite Hbody; cbn; rewrite Hfail.
  - intros r s rendering H Hok Hbody Hfail. unfold loadAndProcessTiff, readAll.
    by rewrite H; cbn; rewrite Hok; cbn; rewrite Hbody; cbn; rewrite Hfail.
  - intros e. unfold loadAndProcessTiff. rewrite snd_rethrow.
    match goal with
    | |- match ?x with _ => _ end = _ -> _ => destruct x as [[msg | r] | a]
    end; intros [= <-]; cbn [loadErrorMessage]; eauto.
Qed.

Lemma transport_failures_witness :
  loadAndProcessTiff notFound "/missing.tif"
  = ([{| percent := JS.of_Z 5; stage := "Downloading TIFF file..."; eta := None |}],
     inl (ErrorObject
            "Failed to load TIFF image: Failed to fetch TIFF: 404 Not Found")).
Proof.
  exact (proj1 (proj2 (proj2 (transport_failures notFound "/missing.tif")))
           {| ok := false; status := 404; statusText := "Not Found";
              contentLength := None; body := None |} eq_refl eq_refl).
Defined.

(** X6. A download that completes with bytes the validator rejects stops
    there: the last event is the one that opens validation, the message is
    the validator's under both prefixes, and the result does not depend on
    the TIFF library, which is not called. *)
Theorem invalid_bytes_stop_the_load (env : Env) (path : string) (r : Response)
    (s : Stream) :
  fetch env path = inr r -> ok r = true -> body r = Some s -> failure s = None ->
  isValid (validateTiff (concat (map value (chunks s)))) = false ->
  loadAndProcessTiff env path
  = ([ {| percent := JS.of_Z 5; stage := "Downloading TIFF file..."; eta := None |};
       {| percent := JS.of_Z 5; stage := "Downloading TIFF file...";
          eta := Some (initialEstimate (contentLength r)) |};
       {| percent := JS.of_Z 10; stage := "Downloading data..."; eta := None |} ]
     ++ downloadReports (startTime env) (contentLength r) 0 (chunks s)
     ++ [validating],
     inl (ErrorObject
            ("Failed to load TIFF image: Invalid TIFF file: "
             +:+ message (validateTiff (concat (map value (chunks s))))))).
Proof.
  intros H Hok Hbody Hfail Hinvalid. unfold loadAndProcessTiff, readAll.
  rewrite H; cbn; rewrite Hok; cbn; rewrite Hbody; cbn; rewrite Hfail; cbn.
  by rewrite Hinvalid.
Qed.

Lemma invalid_bytes_stop_the_load_witness :
  snd (loadAndProcessTiff servingPng "/picture.png")
  = inl (ErrorObject
           ("Failed to load TIFF image: Invalid TIFF file: "
            +:+ "Invalid TIFF byte order marker: 0x8950")).
Proof.
  rewrite (invalid_bytes_stop_the_load servingPng "/picture.png" pngResponse
             {| chunks := [ {| value := [x89; "P"; "N"; "G"; x0d; x0a; x1a; x0a]%byte;
                               now := 1100 |} ];
                failure := None |});
    reflexivity.
Defined.

(** X7. The result of a load whose download completes is a function of the
    bytes received and of what the TIFF library makes of them: the way the
    bytes are cut into chunks, the clock, the status line and the
    content-length header have no effect on it. *)
Theorem load_result_depends_on_bytes (env env' : Env) (path path' : string)
    (r r' : Response) (s s' : Stream) :
  fetch env path = inr r -> fetch env' path' = inr r' ->
  ok r = true -> ok r' = true ->
  body r = Some s -> body r' = Some s' ->
  failure s = None -> failure s' = None ->
  concat (map value (chunks s)) = concat (map value (chunks s')) ->
  fromArrayBuffer env = fromArrayBuffer env' ->
  snd (loadAndProcessTiff env path) = snd (loadAndProcessTiff env' path').
Proof.
  intros H H' Hok Hok' Hbody Hbody' Hfail Hfail' Hbytes Hparser.
  unfold loadAndProcessTiff, readAll.
  repeat load_step. rewrite H, H'. repeat load_step.
  rewrite Hok, Hok'. repeat load_step.
  rewrite Hbody, Hbody'. repeat load_step.
  rewrite Hfail, Hfail'. repeat load_step.
  by rewrite Hbytes, Hparser.
Qed.

Lemma load_result_depends_on_bytes_witness :
  snd (loadAndProcessTiff sampleEnv "/file.tif")
  = snd (loadAndProcessTiff (servingOneChunk sampleImage) "/other.tif").
Proof.
  apply (load_result_depends_on_bytes sampleEnv (servingOneChunk sampleImage)
           "/file.tif" "/other.tif" sampleResponse sampleResponseOneChunk
           {| chunks := sampleChunks; failure := None |}
           {| chunks :=
                [ {| value := ["I"; "I"; "*"; x00; x08; x00; x00; x00]%byte;
                     now := 9000 |} ];
              failure := None |});
    reflexivity.
Defined.

(** ** The reports of the download loop *)

Lemma downloadReports_stage start totalSize downloadedSize cs :
  Forall (fun e => stage e = "Downloading data...")
    (downloadReports start totalSize downloadedSize cs).
Proof.
  revert downloadedSize. induction cs as [| c cs IH]; intros d; [constructor |].
  cbn [downloadReports]. constructor; [| apply IH].
  destruct totalSize as [n |]; [| done]. by destruct (negb (n =? 0)).
Qed.

Lemma downloadReports_unknown_percent start totalSize downloadedSize cs :
  truthy totalSize = false ->
  map percent (downloadReports start totalSize downloadedSize cs)
  = repeat (JS.of_Z 20) (length cs).
Proof.
  intros Hfalsy. revert downloadedSize.
  induction cs as [| c cs IH]; intros d; [done |].
  cbn [downloadReports map length repeat]. rewrite IH. f_equal.
  destruct totalSize as [n |]; [| done]. simpl in Hfalsy. by rewrite Hfalsy.
Qed.

Lemma downloadReports_app start totalSize downloadedSize cs cs' :
  downloadReports start totalSize downloadedSize (cs ++ cs')
  = downloadReports start totalSize downloadedSize cs
    ++ downloadReports start totalSize
         (downloadedSize + Z.of_nat (length (concat (map value cs)))) cs'.
Proof.
  revert downloadedSize. induction cs as [| c cs IH]; intros d.
  - simpl. by rewrite Z.add_0_r.
  - cbn [downloadReports app map concat]. rewrite IH, length_app.
    do 3 f_equal. lia.
Qed.

Lemma Forall_repeat_intro {A} (P : A -> Prop) x n : P x -> Forall P (repeat x n).
Proof. intros Hx. induction n; by constructor. Qed.

Lemma nonDecreasing_stalled n tail :
  nonDecreasing (JS.of_Z 10 :: tail) = true ->
  nonDecreasing (JS.of_Z 20 :: tail) = true ->
  nonDecreasing
    (JS.of_Z 5 :: JS.of_Z 5 :: JS.of_Z 10 :: repeat (JS.of_Z 20) n ++ tail) = true.
Proof.
  intros H10 H20.
  assert (Hrep : forall k,
             nonDecreasing (JS.of_Z 20 :: repeat (JS.of_Z 20) k ++ tail) = true).
  { induction k as [| k IH]; [exact H20 |].
    cbn [repeat app]. cbn [nonDecreasing] in IH |- *. by rewrite IH. }
  destruct n as [| n].
  - cbn [repeat app]. cbn [nonDecreasing] in H10 |- *. by rewrite H10.
  - specialize (Hrep n). cbn [repeat app]. cbn [nonDecreasing] in Hrep |- *.
    by rewrite Hrep.
Qed.

Lemma nonDecreasing_cons x l :
  nonDecreasing (x :: l) = true <->
  match l with [] => True | y :: _ => JS.le x y = true end
  /\ nonDecreasing l = true.
Proof.
  destruct l as [| y l]; [done |]. cbn [nonDecreasing].
  rewrite andb_true_iff. tauto.
Qed.

Lemma nonDecreasing_prefix l1 l2 :
  nonDecreasing (l1 ++ l2) = true -> nonDecreasing l1 = true.
Proof.
  induction l1 as [| x l1 IH]; [done |].
  rewrite <- app_comm_cons, !nonDecreasing_cons. intros [Hx Hl].
  split; [| auto]. by destruct l1.
Qed.

Lemma unknownSizePercents_ordered n :
  nonDecreasing (JS.of_Z 0 :: JS.of_Z 0 :: JS.of_Z 2 :: unknownSizePercents n)
  = true.
Proof.
  unfold unknownSizePercents. cbn [map app].
  do 3 (apply nonDecreasing_cons; split; [done |]).
  by apply nonDecreasing_stalled.
Qed.

Lemma unknownSizePercents_bounds n :
  Forall (fun p => JS.le (JS.of_Z 5) p = true /\ JS.le p (JS.of_Z 100) = true)
    (unknownSizePercents n).
Proof.
  unfold unknownSizePercents.
  repeat first [ apply Forall_cons; split; [by split |]
               | apply Forall_nil_2
               | apply Forall_app; split
               | by apply Forall_repeat_intro ].
Qed.

(** Without a declared total size, the percent values of a load are the
    values of a successful load, or the beginning of these if it fails. *)
Lemma unknown_size_percents env path :
  (forall r, fetch env path = inr r -> truthy (contentLength r) = false) ->
  exists n rest,
    map percent (fst (loadAndProcessTiff env path)) ++ rest
    = unknownSizePercents n.
Proof.
  intros Hunknown. unfold unknownSizePercents.
  load_cases env path;
    try specialize (Hunknown _ eq_refl);
    cbn [app map percent];
    rewrite ?map_app, ?downloadReports_unknown_percent by assumption;
    cbn [map percent];
    first [ by exists 0%nat; eexists
          | match goal with
            | |- context [repeat _ ?n] =>
                exists n; eexists; cbn [app]; rewrite <- ?app_assoc;
                cbn [app]; reflexivity
            end ].
Qed.

(** X8. Without a declared total size (no content-length header, or one
    that is 0), the percent values a load reports are in non-decreasing
    order and lie between 5 and 100, however the load ends and whatever the
    number of chunks, the clock, the parser and the image are. *)
Theorem unknown_size_progress_ordered (env : Env) (path : string) :
  (forall r, fetch env path = inr r -> truthy (contentLength r) = false) ->
  nonDecreasing (map percent (fst (loadAndProcessTiff env path))) = true
  /\ Forall (fun p => JS.le (JS.of_Z 5) p = true /\ JS.le p (JS.of_Z 100) = true)
       (map percent (fst (loadAndProcessTiff env path))).
Proof.
  intros Hunknown.
  destruct (unknown_size_percents env path Hunknown) as (n & rest & Heq).
  pose proof (unknownSizePercents_ordered n) as Hord.
  pose proof (unknownSizePercents_bounds n) as Hbounds.
  rewrite <- Heq in Hord, Hbounds. split.
  - do 3 apply nonDecreasing_cons in Hord as [_ Hord].
    by apply nonDecreasing_prefix in Hord.
  - by apply Forall_app in Hbounds as [Hb _].
Qed.

Lemma unknown_size_progress_ordered_witness :
  nonDecreasing (map percent (fst (loadAndProcessTiff servingPng "/picture.png")))
  = true.
Proof.
  refine (proj1 (unknown_size_progress_ordered servingPng "/picture.png" _)).
  intros r [= <-]. reflexivity.
Defined.

(** X9. The event "Loading completed!" at 100 percent is among the events
    of a load exactly when the load returns a bitmap, and it is then the
    last event. *)
Theorem completion_reported_iff_success (env : Env) (path : string) :
  (In completed (fst (loadAndProcessTiff env path))
   <-> exists bitmap, snd (loadAndProcessTiff env path) = inr bitmap)
  /\ (forall bitmap, snd (loadAndProcessTiff env path) = inr bitmap ->
        last (fst (loadAndProcessTiff env path)) = Some completed).
Proof.
  split.
  - load_cases env path;
      (split;
       [ intros Hin; try (by eexists); exfalso;
         cbn [app In] in Hin; rewrite ?in_app_iff in Hin; cbn [In] in Hin;
         repeat match type of Hin with
                | _ \/ _ => destruct Hin as [Hin | Hin]
                end;
         try done;
         try (by apply (f_equal percent) in Hin; vm_compute in Hin);
         match type of Hin with
         | In _ (downloadReports ?a ?b ?c ?d) =>
             pose proof (downloadReports_stage a b c d) as Hst;
             rewrite List.Forall_forall in Hst; by apply Hst in Hin
         end
       | intros [? ?]; try discriminate;
         cbn [app In]; rewrite ?in_app_iff; cbn [In];
         repeat first [ by left | right ] ]).
  - intros bitmap Hsnd.
    destruct (loadAndProcessTiff env path) as [events result] eqn:Hload.
    simpl in Hsnd. subst result.
    destruct (loadAndProcessTiff_success_last _ _ _ _ Hload) as [t' ->].
    simpl. apply last_snoc.
Qed.

(** X10. When the total size is declared and the chunks received add up to
    exactly that size (a positive number below 2^53), the last chunk of the
    download is reported at 60 percent. *)
Theorem known_size_download_ends_at_60 (start total : Z) (cs : list Chunk)
    (c : Chunk) :
  0 < total < 2 ^ 53 ->
  Z.of_nat (length (concat (map value (cs ++ [c])))) = total ->
  last (map percent (downloadReports start (Some total) 0 (cs ++ [c])))
  = Some (JS.of_Z 60).
Proof.
  intros Htotal Hsum.
  rewrite downloadReports_app, map_app. cbn [downloadReports map].
  rewrite last_snoc. f_equal.
  destruct (total =? 0) eqn:E; [lia |]. cbn [negb].
  rewrite map_app, concat_app, length_app in Hsum. cbn in Hsum.
  rewrite app_nil_r in Hsum.
  replace (0 + Z.of_nat (length (concat (map value cs)))
           + Z.of_nat (length (value c))) with total by lia.
  unfold reportKnownSize. cbn [percent].
  destruct (of_Z_finite total Htotal) as (m & e & ->).
  rewrite div_self. reflexivity.
Qed.

Lemma known_size_download_ends_at_60_witness :
  last (map percent (downloadReports 1000 (Some 8) 0 sampleChunks))
  = Some (JS.of_Z 60).
Proof.
  apply (known_size_download_ends_at_60 1000 8
           [ {| value := ["I"; "I"; "*"; x00]%byte; now := 1200 |} ]
           {| value := [x08; x00; x00; x00]%byte; now := 3500 |});
    [lia | reflexivity].
Defined.

(** ** TiffViewer: one load from start to end *)

Lemma applyUpdates_app s us1 us2 :
  applyUpdates s (us1 ++ us2) = applyUpdates (applyUpdates s us1) us2.
Proof. apply foldl_app. Qed.

Lemma progressSink_preserves events s :
  let s' := applyUpdates s (flat_map progressSink events) in
  isLoading s' = isLoading s /\ error s' = error s
  /\ viewerInstance s' = viewerInstance s.
Proof.
  cbv zeta. revert s. induction events as [| e events IH]; intros s; [done |].
  cbn [flat_map]. rewrite applyUpdates_app.
  destruct (IH (applyUpdates s (progressSink e))) as (-> & -> & ->). done.
Qed.

Lemma countUpdates_app f us1 us2 :
  countUpdates f (us1 ++ us2) = (countUpdates f us1 + countUpdates f us2)%nat.
Proof. unfold countUpdates. by rewrite List.filter_app, length_app. Qed.

Lemma countUpdates_progressSink f events :
  (forall e, countUpdates f (progressSink e) = 0%nat) ->
  countUpdates f (flat_map progressSink events) = 0%nat.
Proof.
  intros Hf. induction events as [| e events IH]; [done |].
  cbn [flat_map]. by rewrite countUpdates_app, Hf, IH.
Qed.

(** X11. The updates of one run of [initViewer], applied in order to any
    display state, leave the component not loading, however the run ends.
    If it succeeds, no error is set, the display shows 100 percent and
    "Image loaded successfully!", and the viewer holds the tile source of
    the bitmap the pipeline returned if the container is attached and the
    run's flag is still set; a run whose flag has been cleared (a
    superseded run) leaves the viewer as it was. If it fails, the error is
    the fixed text "Failed to load TIFF image" and the viewer is left as it
    was. *)
Theorem load_end_state (props : Props) (browser : Browser) (env : Env)
    (isMounted : bool) (s0 : ViewState) :
  let s := applyUpdates s0 (initViewer props browser env isMounted) in
  isLoading s = false
  /\ if succeeds props browser env then
       error s = None
       /\ loadingProgress s = JS.of_Z 100
       /\ loadingStage s = "Image loaded successfully!"
       /\ exists bitmap,
            snd (loadAndProcessTiff env (tiffPath props)) = inr bitmap
            /\ viewerInstance s
               = if viewerRefCurrent browser && isMounted
                 then Some (customTileSource bitmap)
                 else viewerInstance s0
     else
       error s = Some "Failed to load TIFF image"
       /\ viewerInstance s = viewerInstance s0.
Proof.
  cbv zeta. unfold succeeds, initViewer.
  rewrite applyUpdates_app.
  destruct (openSeadragon browser) as [msg | []].
  { unfold catchBlock. by destruct (onError props). }
  destruct (loadAndProcessTiff env (tiffPath props)) as [events [err | bitmap]].
  - rewrite applyUpdates_app. cbn [snd].
    pose proof (progressSink_preserves events (applyUpdates s0 effectStart))
      as (Hl & He & Hv).
    unfold catchBlock. destruct (onError props); cbn; by rewrite ?Hv.
  - rewrite applyUpdates_app. cbn [snd].
    pose proof (progressSink_preserves events (applyUpdates s0 effectStart))
      as (Hl & He & Hv).
    unfold afterLoad, catchBlock, afterTimeout.
    destruct (canvasContext browser); cbn [negb].
    + destruct (viewerRefCurrent browser), isMounted, (onLoad props); cbn;
        rewrite ?He, ?Hv; repeat split; try done; by exists bitmap.
    + destruct (onError props); cbn; by rewrite ?Hv.
Qed.

(** X12. In one run of [initViewer] the host's error callback is called
    once if the run fails and a callback was given, and never if it
    succeeds; a viewer is created once if the run succeeds with the
    container attached and its flag still set, and never otherwise, so
    never by a superseded run; the load handler is registered exactly when
    a viewer is created and a handler was given. *)
Theorem callbacks_once (props : Props) (browser : Browser) (env : Env)
    (isMounted : bool) :
  let us := initViewer props browser env isMounted in
  countUpdates isCallOnError us
  = (if negb (succeeds props browser env) && onError props then 1 else 0)%nat
  /\ countUpdates isCreateViewer us
     = (if succeeds props browser env && viewerRefCurrent browser && isMounted
        then 1 else 0)%nat
  /\ countUpdates isAddOpenHandler us
     = (if succeeds props browser env && viewerRefCurrent browser && isMounted
           && onLoad props
        then 1 else 0)%nat.
Proof.
  cbv zeta. unfold succeeds, initViewer.
  rewrite !countUpdates_app.
  destruct (openSeadragon browser) as [msg | []].
  { unfold catchBlock. by destruct (onError props). }
  destruct (loadAndProcessTiff env (tiffPath props)) as [events [err | bitmap]];
    rewrite !countUpdates_app, !countUpdates_progressSink by done; cbn [snd].
  - unfold catchBlock. by destruct (onError props).
  - unfold afterLoad, catchBlock, afterTimeout.
    by destruct (canvasContext browser), (viewerRefCurrent browser), isMounted,
      (onLoad props), (onError props).
Qed.

(** X21. Without a declared total size, the values passed to
    [setLoadingProgress] by one run of [initViewer] never decrease except
    at one place: when the pipeline has returned a bitmap, the 100 it
    reported last is followed by 98 (and then by 100 again if the canvas
    gave a context). In a run that fails earlier the values never
    decrease. *)
Theorem progress_drops_only_once (props : Props) (browser : Browser) (env : Env)
    (isMounted : bool) :
  (forall r, fetch env (tiffPath props) = inr r ->
             truthy (contentLength r) = false) ->
  let log := progressLog (initViewer props browser env isMounted) in
  match openSeadragon browser,
        snd (loadAndProcessTiff env (tiffPath props)) with
  | inr _, inr _ =>
      exists before,
        log = before
              ++ JS.of_Z 98
                 :: (if canvasContext browser then [JS.of_Z 100] else [])
        /\ nonDecreasing before = true
        /\ last before = Some (JS.of_Z 100)
  | _, _ => nonDecreasing log = true
  end.
Proof.
  intros Hunknown. cbv zeta.
  destruct (unknown_size_percents env (tiffPath props) Hunknown)
    as (n & rest & Heq).
  pose proof (unknownSizePercents_ordered n) as Hord.
  rewrite <- Heq in Hord.
  change (JS.of_Z 0 :: JS.of_Z 0 :: JS.of_Z 2
          :: map percent (fst (loadAndProcessTiff env (tiffPath props))) ++ rest)
    with ((JS.of_Z 0 :: JS.of_Z 0 :: JS.of_Z 2
           :: map percent (fst (loadAndProcessTiff env (tiffPath props))))
          ++ rest) in Hord.
  apply nonDecreasing_prefix in Hord.
  unfold initViewer. rewrite progressLog_app.
  destruct (openSeadragon browser) as [msg | []].
  { unfold catchBlock. by destruct (onError props). }
  destruct (loadAndProcessTiff env (tiffPath props))
    as [events [err | bitmap]] eqn:Hload; cbn [fst snd] in *.
  - rewrite progressLog_app, progressLog_sink.
    replace (progressLog (catchBlock props (caughtMessage err)))
      with (@nil JS.number)
      by (unfold catchBlock; by destruct (onError props)).
    by rewrite app_nil_r.
  - destruct (loadAndProcessTiff_success_last _ _ _ _ Hload) as [t' ->].
    exists (progressLog effectStart ++ map percent (t' ++ [completed])).
    split; [| split; [exact Hord |]].
    + rewrite !progressLog_app, progressLog_sink, <- app_assoc. do 2 f_equal.
      unfold afterLoad, catchBlock, afterTimeout.
      by destruct (canvasContext browser), (viewerRefCurrent browser),
        isMounted, (onLoad props), (onError props).
    + rewrite map_app. cbn [map]. by rewrite app_assoc, last_snoc.
Qed.

Lemma progress_drops_only_once_witness :
  exists before,
    progressLog (initViewer sampleProps sampleBrowser sampleEnv true)
    = before ++ [JS.of_Z 98; JS.of_Z 100]
    /\ nonDecreasing before = true
    /\ last before = Some (JS.of_Z 100).
Proof.
  refine (progress_drops_only_once sampleProps sampleBrowser sampleEnv true _).
  intros r [= <-]. reflexivity.
Defined.

(** ** TiffViewer: the runs of the effect *)

Lemma run_snoc props browser w evs ev :
  run props browser w (evs ++ [ev])
  = step props browser (run props browser w evs) ev.
Proof. unfold run. by rewrite foldl_app. Qed.

Lemma startCount_snoc evs ev :
  startCount (evs ++ [ev])
  = (startCount evs + if isStart ev then 1 else 0)%nat.
Proof.
  unfold startCount. rewrite List.filter_app, length_app. simpl.
  by destruct (isStart ev).
Qed.

Lemma map_false_repeat (l : list bool) :
  map (fun _ => false) l = repeat false (length l).
Proof. induction l as [| b l IH]; [done |]. simpl. by rewrite IH. Qed.

Lemma lookup_repeat {A} (x : A) n i :
  (i < n)%nat -> repeat x n !! i = Some x.
Proof.
  revert i. induction n as [| n IH]; intros [| i] Hlt; simpl; try lia; [done |].
  apply IH. lia.
Qed.

Lemma mounted_run props browser evs :
  mounted (run props browser initialWorld evs)
  = match startCount evs with
    | O => []
    | S n => repeat false n ++ [true]
    end.
Proof.
  induction evs as [| ev evs IH] using rev_ind; [done |].
  rewrite run_snoc, startCount_snoc.
  destruct ev as [| id k]; cbn [step isStart cleanup mounted].
  - rewrite IH, map_false_repeat. replace (startCount evs + 1)%nat
      with (S (startCount evs)) by lia.
    destruct (startCount evs) as [| n]; [done |].
    rewrite length_app, repeat_length. cbn [length].
    replace (n + 1)%nat with (S n) by lia. done.
  - rewrite Nat.add_0_r, <- IH.
    by destruct (mounted (run props browser initialWorld evs) !! id).
Qed.

Lemma start_destroys_viewer props browser w :
  viewerInstance (view (step props browser w Start)) = None.
Proof. destruct w as [[l e p t st [ts |]] m]; reflexivity. Qed.

(** X13. When the path changes, the new run starts from one and the same
    display state whatever the previous run left behind: the viewer is
    destroyed, the error cleared, the component loading at 2 percent with
    an estimate of 12 seconds; the flags of all earlier runs are cleared
    and the new run's flag is set. *)
Theorem start_resets_display (props : Props) (browser : Browser) (w : World) :
  view (step props browser w Start)
  = {| isLoading := true;
       error := None;
       loadingProgress := JS.of_Z 2;
       estimatedTime := Some (JS.of_Z 12);
       loadingStage := "Loading OpenSeadragon...";
       viewerInstance := None |}
  /\ mounted (step props browser w Start)
     = repeat false (length (mounted w)) ++ [true].
Proof.
  split; [| cbn; by rewrite map_false_repeat].
  destruct w as [[l e p t st [ts |]] m]; reflexivity.
Qed.

(** X14. At any time exactly the run started last has its flag set: after
    any sequence of events, the flag of run [id] is set if and only if
    [id] is the index of the last run started. *)
Theorem only_latest_run_mounted (props : Props) (browser : Browser)
    (evs : list Event) (id : nat) :
  length (mounted (run props browser initialWorld evs)) = startCount evs
  /\ (mounted (run props browser initialWorld evs) !! id = Some true
      <-> S id = startCount evs).
Proof.
  rewrite mounted_run. destruct (startCount evs) as [| n]; [done |].
  rewrite length_app, repeat_length. cbn [length]. split; [lia |].
  destruct (decide (id < n)%nat) as [Hlt | Hge].
  - rewrite lookup_app_l by (rewrite repeat_length; lia).
    rewrite lookup_repeat by done. split; [done | lia].
  - rewrite lookup_app_r by (rewrite repeat_length; lia).
    rewrite repeat_length.
    destruct (id - n)%nat as [| k] eqn:E; simpl; [split; [lia | done] |].
    split; [| lia]. by destruct k.
Qed.

(** X15. The viewer on display always shows the current load: whenever a
    viewer exists after a sequence of events, it was created from the
    bitmap delivered to the run that was started last, and no run has been
    started since. *)
Theorem viewer_shows_current_load (props : Props) (browser : Browser)
    (evs : list Event) (ts : TileSource) :
  viewerInstance (view (run props browser initialWorld evs)) = Some ts ->
  exists before after id bitmap,
    evs = before ++ Resume id (Loaded bitmap) :: after
    /\ ts = customTileSource bitmap
    /\ S id = startCount before
    /\ startCount after = 0%nat.
Proof.
  revert ts. induction evs as [| ev evs IH] using rev_ind; intros ts; [done |].
  rewrite run_snoc.
  pose proof (mounted_run props browser evs) as Hm.
  destruct ev as [| id k].
  { intros H. by rewrite start_destroys_viewer in H. }
  cbn [step].
  destruct (mounted (run props browser initialWorld evs) !! id)
    as [isMounted |] eqn:Hid.
  2: { intros (before & after & id' & bitmap & -> & -> & Hs & Ha)%IH.
       exists before, (after ++ [Resume id k]), id', bitmap.
       rewrite <- app_assoc. repeat split; try done.
       rewrite startCount_snoc. simpl. lia. }
  cbn [view].
  assert (Hkeep :
    viewerInstance
      (applyUpdates (view (run props browser initialWorld evs))
         (resume props browser isMounted k))
    = viewerInstance (view (run props browser initialWorld evs))
    \/ exists bitmap, k = Loaded bitmap /\ isMounted = true
         /\ viewerInstance
              (applyUpdates (view (run props browser initialWorld evs))
                 (resume props browser isMounted k))
            = Some (customTileSource bitmap)).
  { destruct k as [e | bitmap | msg |]; cbn [resume].
    - left. apply viewerInstance_applyUpdates. repeat constructor.
    - unfold afterLoad, catchBlock.
      destruct (canvasContext browser); cbn [negb].
      + destruct (viewerRefCurrent browser), isMounted; cbn [andb].
        * right. exists bitmap. by destruct (onLoad props).
        * left. apply viewerInstance_applyUpdates. repeat constructor.
        * left. apply viewerInstance_applyUpdates. repeat constructor.
        * left. apply viewerInstance_applyUpdates. repeat constructor.
      + left. apply viewerInstance_applyUpdates.
        destruct (onError props); repeat constructor.
    - left. apply viewerInstance_applyUpdates. unfold catchBlock.
      destruct (onError props); repeat constructor.
    - left. apply viewerInstance_applyUpdates. repeat constructor. }
  destruct Hkeep as [-> | (bitmap & -> & -> & ->)].
  - intros (before & after & id' & bitmap & -> & -> & Hs & Ha)%IH.
    exists before, (after ++ [Resume id k]), id', bitmap.
    rewrite <- app_assoc. repeat split; try done.
    rewrite startCount_snoc. simpl. lia.
  - intros [= <-]. exists evs, [], id, bitmap. repeat split.
    rewrite Hm in Hid. destruct (startCount evs) as [| n]; [done |].
    destruct (decide (id < n)%nat) as [Hlt | Hge].
    + rewrite lookup_app_l in Hid by (rewrite repeat_length; lia).
      by rewrite lookup_repeat in Hid.
    + rewrite lookup_app_r in Hid by (rewrite repeat_length; lia).
      rewrite repeat_length in Hid.
      destruct (id - n)%nat as [| j] eqn:E; [lia |]. by destruct j.
Qed.

Lemma viewer_shows_current_load_witness :
  exists before after id bitmap,
    [Start; Resume 0 (OnProgress validating); Resume 0 (Loaded sampleBitmap);
     Resume 0 Timeout]
    = before ++ Resume id (Loaded bitmap) :: after
    /\ customTileSource sampleBitmap = customTileSource bitmap
    /\ S id = startCount before
    /\ startCount after = 0%nat.
Proof.
  apply (viewer_shows_current_load sampleProps sampleBrowser
           [Start; Resume 0 (OnProgress validating);
            Resume 0 (Loaded sampleBitmap); Resume 0 Timeout]
           (customTileSource sampleBitmap)).
  reflexivity.
Defined.

(** ** DisplayBitmap: the colour bytes *)

Section PixelBytes.
Variable rgb : nat -> option Z * option Z * option Z.

Lemma writePixel_fill (written : list Z) k m :
  length written = (4 * k)%nat ->
  writePixel rgb (written ++ repeat 0 (4 * S m)) k
  = (written ++ pixelBytes (rgb k)) ++ repeat 0 (4 * m).
Proof using Type.
  intros Hlen. unfold writePixel, pixelBytes, store.
  destruct (rgb k) as [[r g] b].
  replace (4 * S m)%nat with (S (S (S (S (4 * m))))) by lia.
  cbn [repeat].
  rewrite !insert_app_r_alt by lia. rewrite Hlen.
  replace (4 * k - 4 * k)%nat with 0%nat by lia.
  replace (4 * k + 1 - 4 * k)%nat with 1%nat by lia.
  replace (4 * k + 2 - 4 * k)%nat with 2%nat by lia.
  replace (4 * k + 3 - 4 * k)%nat with 3%nat by lia.
  cbn. by rewrite <- app_assoc.
Qed.

Lemma writePixel_full px k :
  (length px <= 4 * k)%nat -> writePixel rgb px k = px.
Proof using Type.
  intros Hlen. unfold writePixel, store. destruct (rgb k) as [[r g] b].
  rewrite !list_insert_ge; rewrite ?length_insert; try lia. done.
Qed.

Lemma pixelLoop_bytes N n :
  foldl (writePixel rgb) (repeat 0 (4 * N)) (seq 0 n)
  = flat_map (fun k => pixelBytes (rgb k)) (seq 0 (Nat.min n N))
    ++ repeat 0 (4 * (N - n)).
Proof using Type.
  induction n as [| n IH]; [by rewrite Nat.sub_0_r |].
  rewrite seq_S, foldl_app, IH, Nat.add_0_l. cbn [foldl].
  assert (Hlen : forall j, length (flat_map (fun k => pixelBytes (rgb k)) (seq 0 j))
                           = (4 * j)%nat).
  { induction j as [| j IHj]; [done |].
    rewrite seq_S, flat_map_app, length_app, IHj. cbn [flat_map].
    unfold pixelBytes. destruct (rgb (0 + j)) as [[r g] b]. cbn. lia. }
  destruct (decide (n < N)%nat) as [Hlt | Hge].
  - replace (N - n)%nat with (S (N - S n)) by lia.
    rewrite writePixel_fill by (rewrite Hlen; lia).
    replace (Nat.min n N) with n by lia.
    replace (Nat.min (S n) N) with (S n) by lia.
    rewrite seq_S, flat_map_app. cbn [flat_map]. by rewrite app_nil_r.
  - rewrite writePixel_full
      by (rewrite length_app, Hlen, repeat_length; lia).
    replace (Nat.min (S n) N) with (Nat.min n N) by lia.
    by replace (N - S n)%nat with (N - n)%nat by lia.
Qed.
End PixelBytes.

Lemma ToUint8Clamp_byte v : isByte v -> JS.ToUint8Clamp (Some v) = v.
Proof. unfold isByte, JS.ToUint8Clamp. intros Hv. cbn. lia. Qed.

Lemma gray_pixels nd m :
  Forall isByte nd -> (m <= length nd)%nat ->
  flat_map (fun k => pixelBytes (nd !! k, nd !! k, nd !! k)) (seq 0 m)
  = flat_map (fun v => [v; v; v; 255]) (take m nd).
Proof.
  intros Hbytes. induction m as [| m IH]; intros Hm; [done |].
  destruct (lookup_lt_is_Some_2 nd m ltac:(lia)) as [v Hv].
  rewrite seq_S, (take_S_r _ _ _ Hv), !flat_map_app, IH by lia.
  cbn [flat_map]. rewrite Nat.add_0_l, Hv. unfold pixelBytes.
  rewrite ToUint8Clamp_byte; [done |].
  rewrite Forall_lookup in Hbytes. by apply (Hbytes m).
Qed.

Lemma triples_spec l n :
  length l = (3 * n)%nat ->
  length (triples l) = n
  /\ forall k, (k < n)%nat ->
       exists r g b, triples l !! k = Some (r, g, b)
                     /\ l !! (3 * k)%nat = Some r
                     /\ l !! (3 * k + 1)%nat = Some g
                     /\ l !! (3 * k + 2)%nat = Some b.
Proof.
  revert l. induction n as [| n IH]; intros l Hlen.
  - destruct l; [| done]. split; [done |]. lia.
  - destruct l as [| r [| g [| b rest]]]; simpl in Hlen; try lia.
    destruct (IH rest ltac:(lia)) as [Hl Hk]. cbn [triples length].
    split; [by rewrite Hl |].
    intros [| k] Hlt; [by exists r, g, b |].
    destruct (Hk k ltac:(lia)) as (r' & g' & b' & H0 & H1 & H2 & H3).
    exists r', g', b'. replace (3 * S k)%nat with (S (S (S (3 * k)))) by lia.
    done.
Qed.

Lemma rgb_pixels nd n m :
  Forall isByte nd -> length nd = (3 * n)%nat -> (m <= n)%nat ->
  flat_map (fun k => pixelBytes (nd !! (3 * k)%nat, nd !! (3 * k + 1)%nat,
                                 nd !! (3 * k + 2)%nat)) (seq 0 m)
  = flat_map (fun '(r, g, b) => [r; g; b; 255]) (take m (triples nd)).
Proof.
  intros Hbytes Hlen. destruct (triples_spec nd n Hlen) as [Hl Hk].
  induction m as [| m IH]; intros Hm; [done |].
  destruct (Hk m ltac:(lia)) as (r & g & b & H0 & H1 & H2 & H3).
  rewrite seq_S, (take_S_r _ _ _ H0), !flat_map_app, IH by lia.
  cbn [flat_map]. rewrite Nat.add_0_l, H1, H2, H3. unfold pixelBytes.
  rewrite Forall_lookup in Hbytes.
  by rewrite !ToUint8Clamp_byte by eauto.
Qed.

Lemma ImageData_new_sized d sw sh :
  length d = (4 * (sw * sh))%nat -> (0 < sw * sh)%nat ->
  ImageData_new d sw sh = inr {| data := d; width := sw; height := sh |}.
Proof.
  intros Hlen Hpos. unfold ImageData_new.
  destruct (Nat.eqb_spec (length d) 0); [lia |].
  destruct (Nat.eqb_spec (length d) (4 * (sw * sh))); [done | lia].
Qed.

(** X16. The bitmap of a 1-channel image, for any length of the sample
    array: pixel [p] is (v, v, v, 255) for the normalized sample [v] at
    [p]; samples beyond width * height are dropped, and pixels for which
    the array has no sample stay (0, 0, 0, 0). The decode succeeds in all
    these cases as long as the image is not empty. *)
Theorem gray_bitmap (image : GeoTIFFImage) (dat : TypedArray) :
  let w := getWidth image in
  let h := getHeight image in
  let normalized :=
    normalizeToUint8Enhanced dat (bitsPerSampleValue (getBitsPerSample image)) in
  getSamplesPerPixel image = 1 ->
  readRasters image [0] = inr dat ->
  TypedArray_wf dat ->
  (0 < w * h)%nat ->
  snd (processImage image)
  = inr {| data :=
             flat_map (fun v => [v; v; v; 255]) (take (w * h) normalized)
             ++ repeat 0 (4 * (w * h - length normalized));
           width := w; height := h |}.
Proof.
  intros w h normalized Hspp Hread Hwf Hpos.
  rewrite (processImage_gray image dat Hspp Hread).
  fold w h normalized.
  replace (w * h * 4)%nat with (4 * (w * h))%nat by lia.
  rewrite grayToRGBA_pixelLoop, pixelLoop_bytes.
  pose proof (normalizeToUint8Enhanced_isByte dat
                (bitsPerSampleValue (getBitsPerSample image)) Hwf) as Hbytes.
  fold normalized in Hbytes.
  rewrite (gray_pixels normalized _ Hbytes) by lia.
  assert (Htake : take (Nat.min (length normalized) (w * h)) normalized
                  = take (w * h) normalized).
  { destruct (decide (w * h <= length normalized)%nat).
    - by replace (Nat.min (length normalized) (w * h)) with (w * h)%nat by lia.
    - by rewrite !take_ge by lia. }
  rewrite Htake.
  apply ImageData_new_sized; [| done].
  rewrite length_app, repeat_length.
  assert (Hfl : forall l : list Z,
            length (flat_map (fun v => [v; v; v; 255]) l) = (4 * length l)%nat).
  { induction l as [| x l IH]; [done |]. cbn [flat_map length app]. lia. }
  rewrite Hfl, length_take. lia.
Qed.

Lemma gray_bitmap_witness :
  snd (processImage sampleImage)
  = inr {| data :=
             flat_map (fun v => [v; v; v; 255])
               (take (2 * 2) (normalizeToUint8Enhanced
                                (Uint8Array [0; 128; 255; 64]) 8))
             ++ repeat 0
                  (4 * (2 * 2 - length (normalizeToUint8Enhanced
                                          (Uint8Array [0; 128; 255; 64]) 8)));
           width := 2; height := 2 |}.
Proof.
  apply (gray_bitmap sampleImage (Uint8Array [0; 128; 255; 64]));
    [reflexivity | reflexivity | | simpl; lia].
  repeat constructor; lia.
Defined.

Lemma normalizeMultiBand_isByte data bits :
  TypedArray_wf data -> Forall isByte (normalizeMultiBand data bits).
Proof.
  intros Hwf. unfold normalizeMultiBand.
  destruct (16 <=? bits);
    auto using normalizeToUint8Enhanced_isByte, normalizeToUint8_isByte.
Qed.

(** X17. The bitmap of a multi-channel image whose sample array holds [n]
    complete triples: pixel [p] is (r, g, b, 255) for the [p]-th triple of
    normalized samples; triples beyond width * height are dropped, and
    pixels without a triple stay (0, 0, 0, 0). *)
Theorem rgb_bitmap (image : GeoTIFFImage) (dat : TypedArray) (n : nat) :
  let w := getWidth image in
  let h := getHeight image in
  let normalized :=
    normalizeMultiBand dat (bitsPerSampleValue (getBitsPerSample image)) in
  3 <= getSamplesPerPixel image ->
  readRasters image [0; 1; 2] = inr dat ->
  TypedArray_wf dat ->
  TypedArray_length dat = (3 * n)%nat ->
  (0 < w * h)%nat ->
  snd (processImage image)
  = inr {| data :=
             flat_map (fun '(r, g, b) => [r; g; b; 255])
               (take (w * h) (triples normalized))
             ++ repeat 0 (4 * (w * h - n));
           width := w; height := h |}.
Proof.
  intros w h normalized Hspp Hread Hwf Hlen Hpos.
  rewrite (processImage_multi image dat Hspp Hread).
  fold w h normalized.
  replace (w * h * 4)%nat with (4 * (w * h))%nat by lia.
  rewrite rgbToRGBA_pixelLoop, pixelLoop_bytes.
  pose proof (normalizeMultiBand_isByte dat
                (bitsPerSampleValue (getBitsPerSample image)) Hwf) as Hbytes.
  pose proof (normalizeMultiBand_length dat
                (bitsPerSampleValue (getBitsPerSample image))) as Hnd.
  fold normalized in Hbytes, Hnd. rewrite Hlen in Hnd.
  assert (Hcount : ((length normalized + 2) / 3 = n)%nat).
  { rewrite Hnd. replace (3 * n + 2)%nat with (2 + n * 3)%nat by lia.
    by rewrite Nat.div_add by lia. }
  rewrite Hcount.
  rewrite (rgb_pixels normalized n _ Hbytes Hnd) by lia.
  destruct (triples_spec normalized n Hnd) as [Hl _].
  assert (Htake : take (Nat.min n (w * h)) (triples normalized)
                  = take (w * h) (triples normalized)).
  { destruct (decide (w * h <= n)%nat).
    - by replace (Nat.min n (w * h)) with (w * h)%nat by lia.
    - by rewrite !take_ge by lia. }
  rewrite Htake.
  apply ImageData_new_sized; [| done].
  rewrite length_app, repeat_length.
  assert (Hfl : forall l : list (Z * Z * Z),
            length (flat_map (fun '(r, g, b) => [r; g; b; 255]) l)
            = (4 * length l)%nat).
  { induction l as [| [[r g] b] l IH]; [done |]. cbn [flat_map length app]. lia. }
  rewrite Hfl, length_take. lia.
Qed.

Lemma rgb_bitmap_witness :
  snd (processImage sampleRGB)
  = inr {| data :=
             flat_map (fun '(r, g, b) => [r; g; b; 255])
               (take (2 * 1)
                  (triples (normalizeMultiBand
                              (Uint8Array [255; 0; 0; 10; 20; 30]) 8)))
             ++ repeat 0 (4 * (2 * 1 - 2));
           width := 2; height := 1 |}.
Proof.
  apply (rgb_bitmap sampleRGB (Uint8Array [255; 0; 0; 10; 20; 30]) 2);
    [simpl; lia | reflexivity | | reflexivity | simpl; lia].
  repeat constructor; lia.
Defined.

(** ** Normalizer: the ends of the stretch *)

Lemma bounded_digits m e :
  bounded JS.prec JS.emax m e = true -> Zpos (digits2_pos m) <= 53.
Proof.
  unfold bounded, canonical_mantissa. intros [H _]%andb_prop.
  apply Z.eqb_eq in H. unfold SpecFloat.fexp, SpecFloat.emin, JS.prec, JS.emax in H.
  lia.
Qed.

Lemma sub_finite x y :
  JS.valid x = true -> JS.valid y = true ->
  JS.isFinite x = true -> JS.isFinite y = true ->
  (forall s m e, x = S754_finite s m e -> e <= 900) ->
  (forall s m e, y = S754_finite s m e -> e <= 900) ->
  JS.isFinite (JS.sub y x) = true.
Proof.
  intros Vx Vy Fx Fy Hx Hy.
  destruct x as [sx | sx | | sx mx ex], y as [sy | sy | | sy my ey];
    try discriminate; try done; try by destruct sx, sy.
  specialize (Hx _ _ _ eq_refl). specialize (Hy _ _ _ eq_refl).
  unfold JS.valid, valid_binary in Vx, Vy.
  pose proof (bounded_emin _ _ Vx). pose proof (bounded_emin _ _ Vy).
  pose proof (bounded_digits _ _ Vx). pose proof (bounded_digits _ _ Vy).
  unfold JS.sub, SFsub. cbv zeta.
  assert (Hmag : forall m e ez, emin <= ez <= e -> e <= 900 ->
            Zpos (digits2_pos m) <= 53 ->
            Zpos (shl_align m e ez).1 < 2 ^ (953 - ez)).
  { intros m e ez Hez He Hd. rewrite shl_align_value by lia.
    pose proof (digits2_pos_bounds m) as [_ Hhi].
    assert (2 ^ Zpos (digits2_pos m) <= 2 ^ 53) by (apply Z.pow_le_mono_r; lia).
    assert (0 < 2 ^ (e - ez)) by (apply Z.pow_pos_nonneg; lia).
    assert (2 ^ (e - ez) <= 2 ^ (900 - ez)) by (apply Z.pow_le_mono_r; lia).
    replace (953 - ez) with (53 + (900 - ez)) by lia.
    rewrite Z.pow_add_r by (unfold emin, SpecFloat.emin, JS.prec, JS.emax in *; lia).
    nia. }
  pose proof (Hmag my ey (Z.min ey ex) ltac:(lia) ltac:(lia) ltac:(lia)) as Hmy.
  pose proof (Hmag mx ex (Z.min ey ex) ltac:(lia) ltac:(lia) ltac:(lia)) as Hmx.
  set (a := cond_Zopp sy (Zpos (shl_align my ey (Z.min ey ex)).1)) in *.
  set (b := cond_Zopp sx (Zpos (shl_align mx ex (Z.min ey ex)).1)) in *.
  assert (Hab : - 2 ^ (954 - Z.min ey ex) < a - b < 2 ^ (954 - Z.min ey ex)).
  { replace (954 - Z.min ey ex) with (1 + (953 - Z.min ey ex)) by lia.
    rewrite Z.pow_add_r
      by (unfold emin, SpecFloat.emin, JS.prec, JS.emax in *; lia).
    subst a b. destruct sx, sy; cbn [cond_Zopp]; lia. }
  unfold binary_normalize.
  assert (Hfin : forall s p, Zpos p < 2 ^ (954 - Z.min ey ex) ->
            JS.isFinite (binary_round JS.prec JS.emax s p (Z.min ey ex)) = true).
  { intros s p Hp.
    destruct (binary_round_finite s p (Z.min ey ex)) as (m' & e' & ->); [| | done].
    - unfold emin, SpecFloat.emin, JS.prec, JS.emax in *. lia.
    - pose proof (digits2_pos_le p (954 - Z.min ey ex)
                    ltac:(unfold emin, SpecFloat.emin, JS.prec, JS.emax in *; lia) Hp).
      lia. }
  destruct (a - b) as [| p | p]; [done | |]; apply Hfin; lia.
Qed.

Lemma u16_exponent x s m e :
  0 <= x < 65536 -> JS.of_Z x = S754_finite s m e -> e <= 900.
Proof.
  intros Hx Heq.
  destruct (decide (x = 65535)) as [-> | Hne].
  { vm_compute in Heq. injection Heq as <- <- <-. lia. }
  assert (Hlt : JS.lt (JS.of_Z x) (JS.of_Z 65535) = true)
    by (rewrite u16_lt by lia; apply Z.ltb_lt; lia).
  assert (Hx' : JS.of_Z x <> JS.NaN) by by rewrite Heq.
  assert (Hy' : JS.of_Z 65535 <> JS.NaN) by done.
  apply (proj1 (lt_rank _ _ Hx' Hy')) in Hlt.
  rewrite Heq in Hlt. change (JS.of_Z 65535) with (S754_finite false 9007061815787520 (-37)) in Hlt.
  unfold below in Hlt. destruct s; cbn [rank fst snd] in Hlt.
  - destruct (u16_facts x Hx) as (_ & _ & Hnext).
    assert (H0 : JS.lt (JS.of_Z 0) (JS.of_Z x) = true \/ x = 0)
      by (destruct (decide (x = 0));
          [by right | left; rewrite u16_lt by lia; apply Z.ltb_lt; lia]).
    destruct H0 as [H0 | ->]; [| by vm_compute in Heq].
    rewrite Heq in H0. by vm_compute in H0.
  - lia.
Qed.

Lemma sub_self x : JS.isFinite x = true -> exists s, JS.sub x x = S754_zero s.
Proof.
  destruct x as [s | s | | s m e]; try done; intros _.
  - exists false. by destruct s.
  - exists false. unfold JS.sub, SFsub. cbv zeta. by rewrite Z.sub_diag.
Qed.

(** Finite numbers that compare equal are the same number, or both 0. *)
Lemma eqb_finite_cases v x :
  JS.isFinite x = true -> JS.eqb v x = true ->
  v = x \/ exists sv sx, v = S754_zero sv /\ x = S754_zero sx.
Proof.
  intros Fx (Hv & _ & Hr)%eqb_rank.
  destruct v as [sv | sv | | sv mv ev], x as [sx | sx | | sx mx ex]; try done;
    try (right; by eauto);
    try (by destruct sv); try (by destruct sx).
  all: left; destruct sv, sx; cbn [rank] in Hr; try done; inversion Hr; subst;
    try done; by replace ev with ex by lia.
Qed.

Lemma stretch_of_min lo hi v :
  JS.isFinite lo = true -> JS.eqb v lo = true ->
  JS.lt (JS.of_Z 0) (JS.sub hi lo) = true ->
  JS.isFinite v = true /\ stretch lo hi v = 0.
Proof.
  intros Flo Heq Hpos.
  assert (Hs : JS.isFinite v = true /\ exists s, JS.sub v lo = S754_zero s).
  { destruct (eqb_finite_cases v lo Flo Heq) as [-> | (sv & sx & -> & ->)].
    - split; [done |]. by apply sub_self.
    - split; [done |]. destruct sv, sx; by eexists. }
  destruct Hs as [Fv [s Hs]]. split; [done |].
  unfold stretch. rewrite Hs.
  destruct (JS.sub hi lo) as [sr | sr | | sr mr er]; try done; destruct sr; try done;
    by destruct s.
Qed.

Lemma stretch_of_max lo hi v :
  JS.isFinite hi = true -> JS.eqb v hi = true -> JS.lt lo hi = true ->
  JS.isFinite (JS.sub hi lo) = true -> JS.lt (JS.of_Z 0) (JS.sub hi lo) = true ->
  JS.isFinite v = true /\ stretch lo hi v = 255.
Proof.
  intros Fhi Heq Hlt Hfin Hpos.
  assert (Hs : JS.isFinite v = true /\ JS.sub v lo = JS.sub hi lo).
  { destruct (eqb_finite_cases v hi Fhi Heq) as [-> | (sv & sx & -> & ->)];
      [done |].
    split; [done |].
    destruct lo as [sl | sl | | sl ml el]; try done; destruct sl; try done;
      by destruct sv, sx. }
  destruct Hs as [Fv Hs]. split; [done |].
  unfold stretch. rewrite Hs.
  destruct (JS.sub hi lo) as [sr | sr | | sr mr er]; try done;
    try by destruct sr.
  rewrite div_self. by vm_compute.
Qed.

(** X18. A stretch uses the whole output range. For every well-formed
    [Uint16Array] or [Float32Array] with two finite samples of which one is
    below the other, and with finite differences of finite samples (as
    always for 16-bit data), at any [bitsPerSample]: with min and max the
    smallest and the largest finite sample, every sample that compares equal
    to min is mapped to 0 and every sample that compares equal to max to
    255; both values occur in the result. *)
Theorem stretch_reaches_both_ends (data : TypedArray) (bitsPerSample : Z)
    (a b : JS.number) :
  TypedArray_wf data -> is16or32 data ->
  a ∈ samples data -> b ∈ samples data ->
  JS.isFinite a = true -> JS.isFinite b = true -> JS.lt a b = true ->
  differencesFinite data ->
  let result := normalizeToUint8Enhanced data bitsPerSample in
  exists lo hi,
    isDynamicRange lo hi (samples data)
    /\ (forall i v, samples data !! i = Some v -> JS.eqb v lo = true ->
                    result !! i = Some 0)
    /\ (forall i v, samples data !! i = Some v -> JS.eqb v hi = true ->
                    result !! i = Some 255)
    /\ 0 ∈ result /\ 255 ∈ result.
Proof.
  intros Hwf H16 Ia Ib Fa Fb Hab Hdiff result.
  destruct (observedRange_dynamic data a Hwf H16 Ia Fa)
    as (lo & hi & Hobs & Hrange).
  pose proof (dynamicRange_lt _ _ _ _ _ Hrange Ia Ib Fa Fb Hab) as Hlt.
  pose proof Hrange as (Flo & Ilo & Fhi & Ihi & _).
  destruct (observedRange_spec _ _ _ Hwf Hobs Flo) as [_ Htest].
  rewrite Hlt in Htest.
  assert (Hfin : JS.isFinite (JS.sub hi lo) = true).
  { destruct data as [d | d | d | t d]; [done | | | done].
    - pose proof (u16_samples d Hwf) as Hs. rewrite Forall_forall in Hs.
      cbn [samples] in Ilo, Ihi.
      destruct (Hs _ Ilo) as [Vlo _], (Hs _ Ihi) as [Vhi _].
      apply list_elem_of_fmap in Ilo as (x & -> & Ix), Ihi as (y & -> & Iy).
      cbn [TypedArray_wf] in Hwf. rewrite Forall_forall in Hwf.
      apply sub_finite; try done; intros s m e Heq.
      + exact (u16_exponent x s m e (Hwf x Ix) Heq).
      + exact (u16_exponent y s m e (Hwf y Iy) Heq).
    - by apply Hdiff. }
  assert (Hres : result
                 = map (fun v => if JS.isFinite v then stretch lo hi v else 0)
                     (samples data)).
  { subst result.
    by rewrite (normalizeToUint8Enhanced_cases _ _ _ _ Hwf Hobs), Flo, Hlt. }
  assert (H0 : forall i v, samples data !! i = Some v -> JS.eqb v lo = true ->
                           result !! i = Some 0).
  { intros i v Hi Heq. rewrite Hres, list_lookup_fmap, Hi. cbn.
    destruct (stretch_of_min lo hi v Flo Heq Htest) as [-> ->]. done. }
  assert (H255 : forall i v, samples data !! i = Some v -> JS.eqb v hi = true ->
                             result !! i = Some 255).
  { intros i v Hi Heq. rewrite Hres, list_lookup_fmap, Hi. cbn.
    destruct (stretch_of_max lo hi v Fhi Heq Hlt Hfin Htest) as [-> ->]. done. }
  assert (Hrefl : forall x, JS.isFinite x = true -> JS.eqb x x = true).
  { intros x Fx. unfold JS.eqb, SFeqb, SFcompare.
    destruct x as [s | s | | s m e]; try done; destruct s;
      rewrite Pos.compare_cont_spec, Z.compare_refl; simpl;
      by rewrite Pos.compare_refl. }
  exists lo, hi.
  split; [exact Hrange |]. split; [exact H0 |]. split; [exact H255 |]. split.
  - apply list_elem_of_lookup in Ilo as [i Hi].
    apply list_elem_of_lookup. exists i. apply (H0 i lo Hi). by apply Hrefl.
  - apply list_elem_of_lookup in Ihi as [i Hi].
    apply list_elem_of_lookup. exists i. apply (H255 i hi Hi). by apply Hrefl.
Qed.

Lemma stretch_reaches_both_ends_witness :
  exists lo hi,
    isDynamicRange lo hi (map JS.of_Z [700; 12; 65535; 12])
    /\ (forall i v, map JS.of_Z [700; 12; 65535; 12] !! i = Some v ->
                    JS.eqb v lo = true ->
                    normalizeToUint8Enhanced (Uint16Array [700; 12; 65535; 12]) 16
                    !! i = Some 0)
    /\ (forall i v, map JS.of_Z [700; 12; 65535; 12] !! i = Some v ->
                    JS.eqb v hi = true ->
                    normalizeToUint8Enhanced (Uint16Array [700; 12; 65535; 12]) 16
                    !! i = Some 255)
    /\ 0 ∈ normalizeToUint8Enhanced (Uint16Array [700; 12; 65535; 12]) 16
    /\ 255 ∈ normalizeToUint8Enhanced (Uint16Array [700; 12; 65535; 12]) 16.
Proof.
  refine (stretch_reaches_both_ends (Uint16Array [700; 12; 65535; 12]) 16
            (JS.of_Z 12) (JS.of_Z 700) _ _ _ _ _ _ _ _).
  - repeat constructor; lia.
  - exact I.
  - apply list_elem_of_In. simpl. tauto.
  - apply list_elem_of_In. simpl. tauto.
  - reflexivity.
  - reflexivity.
  - reflexivity.
  - exact I.
Defined.

(** ** Normalizer: the plain conversion *)

Lemma le_lt_eqb x y : JS.le x y = JS.lt x y || JS.eqb x y.
Proof.
  unfold JS.le, JS.lt, JS.eqb, SFleb, SFltb, SFeqb.
  by destruct (SFcompare x y) as [[] |].
Qed.

Lemma le_not_lt x y : JS.le x y = true -> JS.lt y x = false.
Proof.
  rewrite le_lt_eqb. intros [H | H]%orb_prop.
  - by apply lt_asym.
  - by destruct (eqb_not_lt _ _ H).
Qed.

Lemma shl_1 bits : 1 <= bits <= 16 -> JS.shl 1 bits = 2 ^ bits.
Proof.
  intros Hb. unfold JS.shl, JS.wrap_int32.
  rewrite (Z.mod_small 1) by lia. rewrite (Z.mod_small bits) by lia.
  rewrite Z.shiftl_1_l.
  assert (2 ^ bits <= 2 ^ 16) by (apply Z.pow_le_mono_r; lia).
  assert (0 < 2 ^ bits) by (apply Z.pow_pos_nonneg; lia).
  rewrite Z.mod_small by lia. lia.
Qed.

(** X19. The plain conversion at its ends. A float sample of at least 1 is
    stored as 255, and one that is at most 0 or NaN as 0. A 16-bit sample
    equal to the full scale 2^bitsPerSample - 1 is stored as 255 and the
    sample 0 as 0, for 1 to 16 bits per sample. *)
Theorem plain_normalizer_ends (bitsPerSample : Z) (i : nat) :
  (forall (d : list JS.number) (x : JS.number),
     d !! i = Some x ->
     (JS.le (JS.of_Z 1) x = true ->
      normalizeToUint8 (Float32Array d) bitsPerSample !! i = Some 255)
     /\ (JS.le x (JS.of_Z 0) = true \/ x = JS.NaN ->
         normalizeToUint8 (Float32Array d) bitsPerSample !! i = Some 0))
  /\ (forall d : list Z,
        1 <= bitsPerSample <= 16 ->
        (d !! i = Some (2 ^ bitsPerSample - 1) ->
         normalizeToUint8 (Uint16Array d) bitsPerSample !! i = Some 255)
        /\ (d !! i = Some 0 ->
            normalizeToUint8 (Uint16Array d) bitsPerSample !! i = Some 0)).
Proof.
  split.
  - intros d x Hx. cbn [normalizeToUint8]. rewrite list_lookup_fmap, Hx. cbn.
    split.
    + intros Hle. f_equal. pose proof (le_not_lt _ _ Hle) as Hnlt.
      change (JS.of_Z 1) with (S754_finite false 4503599627370496 (-52)) in *.
      unfold JS.Math_min.
      destruct x as [s | s | | s m e]; try done; try by destruct s.
      unfold JS.lt in Hnlt. by rewrite Hnlt.
    + intros [Hle | ->]; [| done]. f_equal.
      destruct x as [s | s | | s m e]; try done; by destruct s.
  - intros d Hbits.
    assert (Hpow : 2 <= 2 ^ bitsPerSample <= 2 ^ 16).
    { split; [| apply Z.pow_le_mono_r; lia].
      change 2 with (2 ^ 1) at 1. apply Z.pow_le_mono_r; lia. }
    destruct (of_Z_finite (2 ^ bitsPerSample - 1) ltac:(lia)) as (m & e & Hm).
    cbn [normalizeToUint8]. rewrite !list_lookup_fmap, shl_1 by done.
    split; intros ->; cbn; f_equal; rewrite Hm.
    + by rewrite div_self.
    + done.
Qed.

Lemma plain_normalizer_ends_witness :
  normalizeToUint8 (Uint16Array [7; 4095; 0]) 12 !! 1%nat = Some 255.
Proof.
  refine (proj1 (proj2 (plain_normalizer_ends 12 1) [7; 4095; 0] _) _);
    [lia | reflexivity].
Defined.

(** ** loadOpenSeadragon *)

(** X20. The call resolves exactly when [window.OpenSeadragon] is defined
    afterwards. Once a call has resolved, every later call resolves at once
    and leaves the page as it is, whatever would happen to a script; until
    then every call appends one more script element to the head. *)
Theorem loadOpenSeadragon_once (page : Page) (outcome : ScriptOutcome) :
  let '(page', result) := loadOpenSeadragon page outcome in
  (result = inr tt <-> windowOpenSeadragon page' = true)
  /\ (windowOpenSeadragon page = true -> page' = page)
  /\ (windowOpenSeadragon page = false ->
      headScripts page' = headScripts page ++ [openSeadragonSrc])
  /\ (result = inr tt ->
      forall later, loadOpenSeadragonTimes page' later = page'
                    /\ forall o, loadOpenSeadragon page' o = (page', inr tt)).
Proof.
  unfold loadOpenSeadragon.
  destruct (windowOpenSeadragon page) eqn:Hw.
  - repeat split; try done.
    + induction later as [| o later IH]; [done |].
      cbn. unfold loadOpenSeadragon at 2. by rewrite Hw.
    + intros o. unfold loadOpenSeadragon. by rewrite Hw.
  - destruct outcome as [[] | error]; repeat split; try done.
    induction later as [| o later IH]; [done |]. done.
Qed.
